(** * Half-edge topology queries over a triangle mesh

    A shallow embedding of [createHalfEdgeTopology]
    (packages/core/src/useCameraPos/index.ts): the closure state, the
    face, edge and vertex queries, the walk around a vertex and the
    breadth-first path search, followed by the properties the
    specification states about them.

    Conventions.
    - JavaScript numbers that occur as indices are integers and are
      modelled by [Z] (no NaN, no fraction); their arithmetic is the
      exact one, which is that of the code as long as the values stay
      within the safe integers, up to 2^53 in magnitude.  The two
      counts [getVertexCount] and [getFaceCount] are quotients of
      buffer lengths and are modelled by [Q].
    - A read outside an array yields [undefined]; an array element is
      therefore an [option Z], with [None] for [undefined].
    - A [Set<number>] that is only tested for membership is a [gset];
      one that is turned back into an array keeps its insertion order
      and is a duplicate-free list. *)

From Stdlib Require Import ZArith QArith Lia.
From stdpp Require Import base decidable option list numbers gmap sets.

Local Open Scope Z_scope.

(** ** JavaScript arrays *)

(** A value held in an array of numbers: a number or [undefined]. *)
Abbreviation value := (option Z).

(** [a[i]] on a typed array (Uint32Array): [undefined] out of range. *)
Definition typed_get (a : list Z) (i : Z) : value :=
  if decide (0 ≤ i) then a !! Z.to_nat i else None.

(** [a[i]] on an ordinary array of numbers. *)
Definition array_get (a : list value) (i : Z) : value :=
  if decide (0 ≤ i) then mjoin (a !! Z.to_nat i) else None.

(** [a.includes(x)]. *)
Definition includes (a : list value) (x : value) : bool :=
  bool_decide (x ∈ a).

(** [a.indexOf(x)]: the first position of [x], or [-1]. *)
Definition indexOf (a : list value) (x : value) : Z :=
  match list_find (x =.) a with
  | Some (i, _) => Z.of_nat i
  | None => -1
  end.

(** The values taken by [i] in [for (let i = 0; i < len / d; i++)], the
    division being the exact one of JavaScript numbers: for [d > 0] the
    guard [i < len / d] is [i * d < len]. *)
Definition loop_range (len d : Z) : list Z :=
  seqZ 0 ((len + d - 1) `div` d).

(** [s.add(x)] followed by [Array.from(s)]: insertion order, no
    duplicates. *)
Definition set_add (s : list value) (x : value) : list value :=
  if decide (x ∈ s) then s else s ++ [x].

(** ** Geometry and half-edge map *)

(** Edge descriptor: [faceIndex, edgeIndex]. *)
Abbreviation EdgeDescriptor := (Z * Z)%type.

(** What the code reads of a [THREE.BufferGeometry]:
    [attributes.position.array] and, when present, [index.array]. *)
Record BufferGeometry : Type := {
  position : list Q;
  index : option (list Z);
}.

(** The three vertices of face [faceIndex], from the buffers alone.
    Without an index buffer the products and sums are exact; the code
    computes them in double precision, with the same result while
    [faceIndex * 3 + 2] is a safe integer, as it is for every face of
    a mesh. *)
Definition face_triple (indices : option (list Z)) (faceIndex : Z)
  : list value :=
  match indices with
  | None =>
      [Some (faceIndex * 3); Some (faceIndex * 3 + 1);
       Some (faceIndex * 3 + 2)]
  | Some idx =>
      [typed_get idx (faceIndex * 3); typed_get idx (faceIndex * 3 + 1);
       typed_get idx (faceIndex * 3 + 2)]
  end.

(** The faces of a snapshot, in index order. *)
Definition face_range (vertices : list Q) (indices : option (list Z))
  : list Z :=
  match indices with
  | None => loop_range (Z.of_nat (length vertices)) 9
  | Some idx => loop_range (Z.of_nat (length idx)) 3
  end.

Module HalfEdgeMap.

(** Modelled from the spec: the class [HalfEdgeMap] of the package
    three-bvh-csg (its [updateFrom], [getSiblingTriangleIndex] and
    [getSiblingEdgeIndex]) is not part of the sources.  The
    specification describes it as the Adjacency Builder and its
    Adjacency Table: a total function from half-edge descriptors to a
    sibling descriptor or none. *)
Record t : Type := { sibling : EdgeDescriptor → option EdgeDescriptor }.

(** Modelled from the spec: the edge in slot [e] of a face lies between
    the vertex at position [e] and the vertex at position
    [(e + 1) mod 3]. *)
Definition edge_ends (g : BufferGeometry) (d : EdgeDescriptor)
  : value * value :=
  let fv := face_triple (index g) d.1 in
  (array_get fv d.2, array_get fv ((d.2 + 1) `rem` 3)).

(** Modelled from the spec: edges are matched by their unordered
    vertex-index pair. *)
Definition same_edge (k1 k2 : value * value) : Prop :=
  k1 = k2 ∨ k1 = (k2.2, k2.1).

#[global] Instance same_edge_dec k1 k2 : Decision (same_edge k1 k2).
Proof. unfold same_edge. apply _. Defined.

(** Modelled from the spec: for each face its three edges are
    enumerated; this is the discovery order. *)
Definition half_edges (g : BufferGeometry) : list EdgeDescriptor :=
  f ← face_range (position g) (index g); (λ e, (f, e)) <$> [0; 1; 2].

(** Modelled from the spec: the descriptors are grouped by their key;
    the group of [d], in discovery order. *)
Definition edge_group (g : BufferGeometry) (d : EdgeDescriptor)
  : list EdgeDescriptor :=
  filter (λ d', same_edge (edge_ends g d') (edge_ends g d)) (half_edges g).

(** Modelled from the spec: inside a group the descriptors are paired
    consecutively, positions 0-1, 2-3, ... *)
Definition mate (p : nat) : nat :=
  if Nat.even p then S p else pred p.

(** Modelled from the spec: two descriptors of a group are each other's
    sibling, a single one is a boundary edge, and of more than two the
    one left unmatched is a boundary edge. *)
Definition pair_up (g : BufferGeometry) (d : EdgeDescriptor)
  : option EdgeDescriptor :=
  match list_find (d =.) (edge_group g d) with
  | Some (p, _) => edge_group g d !! mate p
  | None => None
  end.

(** Modelled from the spec: the table is regenerated in full from the
    snapshot on every call. *)
Definition updateFrom (g : BufferGeometry) : t :=
  {| sibling := pair_up g |}.

(** Modelled from the spec: the face of the sibling, [-1] for none. *)
Definition getSiblingTriangleIndex (h : t) (triIndex edgeIndex : Z) : Z :=
  match sibling h (triIndex, edgeIndex) with
  | Some d => d.1
  | None => -1
  end.

(** Modelled from the spec: the slot of the sibling, [-1] for none. *)
Definition getSiblingEdgeIndex (h : t) (triIndex edgeIndex : Z) : Z :=
  match sibling h (triIndex, edgeIndex) with
  | Some d => d.2
  | None => -1
  end.

End HalfEdgeMap.

(** ** The closure of [createHalfEdgeTopology] *)

(** The variables captured by the query functions: [vertices],
    [indices] and [halfEdgeMap]. *)
Record Topology : Type := {
  vertices : list Q;
  indices : option (list Z);
  halfEdgeMap : HalfEdgeMap.t;
}.

(** [createHalfEdgeTopology(geometry)]: [g] is the content of the
    geometry at the time of the call. *)
Definition createHalfEdgeTopology (g : BufferGeometry) : Topology :=
  {| vertices := position g;
     indices := index g;
     halfEdgeMap := HalfEdgeMap.updateFrom g |}.

(** [update()]: re-reads the geometry, whose content is [g] at the
    time of the call, and rebuilds the half-edge map. *)
Definition update (g : BufferGeometry) (t : Topology) : Topology :=
  {| vertices := position g;
     indices := index g;
     halfEdgeMap := HalfEdgeMap.updateFrom g |}.

Section queries.
Variable t : Topology.

(** *** Utility methods *)

Definition getVertexCount : Q :=
  (inject_Z (Z.of_nat (length (vertices t))) / 3)%Q.

Definition getFaceCount : Q :=
  match indices t with
  | Some idx => (inject_Z (Z.of_nat (length idx)) / 3)%Q
  | None => (inject_Z (Z.of_nat (length (vertices t))) / 9)%Q
  end.

(** *** Face queries *)

Definition getFaceVertices (faceIndex : Z) : list value :=
  face_triple (indices t) faceIndex.

Definition getFaceNeighbors (faceIndex : Z) : list Z :=
  foldl (λ neighbors edgeIndex,
           let siblingFace :=
             HalfEdgeMap.getSiblingTriangleIndex (halfEdgeMap t)
               faceIndex edgeIndex in
           if decide (siblingFace ≠ -1) then neighbors ++ [siblingFace]
           else neighbors)
        [] [0; 1; 2].

Definition getFaceEdges (faceIndex : Z) : list EdgeDescriptor :=
  [(faceIndex, 0); (faceIndex, 1); (faceIndex, 2)].

Definition isFaceOnBoundary (faceIndex : Z) : bool :=
  existsb (λ edgeIndex,
             bool_decide
               (HalfEdgeMap.getSiblingTriangleIndex (halfEdgeMap t)
                  faceIndex edgeIndex = -1))
          [0; 1; 2].

(** [null] is [None]. *)
Definition walkAroundFace (faceIndex : Z) : list (option Z) :=
  foldl (λ neighbors edgeIndex,
           let neighbor :=
             HalfEdgeMap.getSiblingTriangleIndex (halfEdgeMap t)
               faceIndex edgeIndex in
           neighbors ++ [if decide (neighbor ≠ -1) then Some neighbor
                         else None])
        [] [0; 1; 2].

(** *** Edge queries *)

Definition getEdgeFaces (faceIndex edgeIndex : Z) : list Z :=
  let siblingFace :=
    HalfEdgeMap.getSiblingTriangleIndex (halfEdgeMap t)
      faceIndex edgeIndex in
  if decide (siblingFace ≠ -1) then [faceIndex; siblingFace]
  else [faceIndex].

Definition getEdgeVertices (faceIndex edgeIndex : Z) : value * value :=
  let faceVertices := getFaceVertices faceIndex in
  (array_get faceVertices edgeIndex,
   array_get faceVertices ((edgeIndex + 1) `rem` 3)).

Definition getOppositeHalfEdge (faceIndex edgeIndex : Z)
  : option EdgeDescriptor :=
  let siblingFace :=
    HalfEdgeMap.getSiblingTriangleIndex (halfEdgeMap t)
      faceIndex edgeIndex in
  let siblingEdge :=
    HalfEdgeMap.getSiblingEdgeIndex (halfEdgeMap t)
      faceIndex edgeIndex in
  if decide (siblingFace ≠ -1 ∧ siblingEdge ≠ -1)
  then Some (siblingFace, siblingEdge)
  else None.

Definition isEdgeOnBoundary (faceIndex edgeIndex : Z) : bool :=
  bool_decide
    (HalfEdgeMap.getSiblingTriangleIndex (halfEdgeMap t)
       faceIndex edgeIndex = -1).

(** *** Vertex queries

    The parameter is declared a number; the path search also passes
    array elements, so the functions are defined on every value. *)

Definition getVertexIncidentFaces (vertexIndex : value) : list Z :=
  filter (λ i, includes (getFaceVertices i) vertexIndex = true)
         (face_range (vertices t) (indices t)).

Definition getVertexNeighbors (vertexIndex : value) : list value :=
  foldl (λ neighbors faceIndex,
           let faceVertices := getFaceVertices faceIndex in
           let vertexPos := indexOf faceVertices vertexIndex in
           if decide (vertexPos ≠ -1)
           then foldl (λ s i,
                         if decide (i ≠ vertexPos)
                         then set_add s (array_get faceVertices i)
                         else s)
                      neighbors [0; 1; 2]
           else neighbors)
        [] (getVertexIncidentFaces vertexIndex).

Definition getVertexIncidentEdges (vertexIndex : value)
  : list EdgeDescriptor :=
  foldl (λ edges faceIndex,
           let faceVertices := getFaceVertices faceIndex in
           let vertexPos := indexOf faceVertices vertexIndex in
           if decide (vertexPos ≠ -1)
           then edges ++ [(faceIndex, vertexPos);
                          (faceIndex, (vertexPos + 2) `rem` 3)]
           else edges)
        [] (getVertexIncidentFaces vertexIndex).

Definition getVertexValence (vertexIndex : value) : Z :=
  Z.of_nat (length (getVertexNeighbors vertexIndex)).

End queries.

(** ** Traversal operations *)

Section traversal.
Variable t : Topology.

(** The [while] loop of [walkAroundVertex]; [None] when the fuel runs
    out before the loop ends. *)
Fixpoint walk_loop (fuel : nat) (vertexIndex : value)
    (incidentFaces : list Z) (visited : gset Z) (orderedFaces : list Z)
    (currentFace : Z) : option (list Z) :=
  match fuel with
  | O => None
  | S fuel =>
      if decide (currentFace ∈ visited) then Some orderedFaces
      else
        let visited := {[currentFace]} ∪ visited in
        let orderedFaces := orderedFaces ++ [currentFace] in
        let faceVertices := getFaceVertices t currentFace in
        let vertexPos := indexOf faceVertices vertexIndex in
        if decide (vertexPos ≠ -1) then
          let nextEdge := (vertexPos + 2) `rem` 3 in
          let nextFace :=
            HalfEdgeMap.getSiblingTriangleIndex (halfEdgeMap t)
              currentFace nextEdge in
          if decide (nextFace ≠ -1 ∧ nextFace ∈ incidentFaces
                     ∧ nextFace ∉ visited)
          then walk_loop fuel vertexIndex incidentFaces visited
                 orderedFaces nextFace
          else Some orderedFaces
        else Some orderedFaces
  end.

(** [startFaceIndex] is [None] when the argument is omitted. *)
Definition walkAroundVertex_fuel (fuel : nat) (vertexIndex : value)
    (startFaceIndex : option Z) : option (list Z) :=
  let incidentFaces := getVertexIncidentFaces t vertexIndex in
  match incidentFaces with
  | [] => Some []
  | first :: _ =>
      let startFace := default first startFaceIndex in
      walk_loop fuel vertexIndex incidentFaces ∅ [] startFace
  end.

(** Every turn of the loop but the first visits a new incident face. *)
Definition walkAroundVertex (vertexIndex : value)
    (startFaceIndex : option Z) : list Z :=
  default []
    (walkAroundVertex_fuel
       (S (length (getVertexIncidentFaces t vertexIndex)))
       vertexIndex startFaceIndex).

End traversal.

(** The [while] loop of [findShortestPath] over the graph given by
    [neighbors]; the outer [None] is for fuel that runs out, the inner
    one is [null]. *)
Fixpoint bfs_loop (neighbors : value → list value) (endVertex : value)
    (fuel : nat) (visited : gset value) (queue : list (value * list value))
  : option (option (list value)) :=
  match fuel with
  | O => None
  | S fuel =>
      match queue with
      | [] => Some None
      | (vertex, path) :: queue =>
          if decide (vertex ∈ visited)
          then bfs_loop neighbors endVertex fuel visited queue
          else
            let visited := {[vertex]} ∪ visited in
            if decide (vertex = endVertex) then Some (Some path)
            else
              bfs_loop neighbors endVertex fuel visited
                (foldl (λ queue neighbor,
                          if decide (neighbor ∉ visited)
                          then queue ++ [(neighbor, path ++ [neighbor])]
                          else queue)
                       queue (neighbors vertex))
      end
  end.

Section search.
Variable t : Topology.

Definition findShortestPath_fuel (fuel : nat)
    (startVertex endVertex : value) : option (option (list value)) :=
  if decide (startVertex = endVertex) then Some (Some [startVertex])
  else bfs_loop (getVertexNeighbors t) endVertex fuel ∅
         [(startVertex, [startVertex])].

(** Every value that occurs in a face. *)
Definition mesh_values : list value :=
  f ← face_range (vertices t) (indices t); getFaceVertices t f.

(** A number of turns the loop cannot exceed: a vertex is expanded at
    most once, and every expansion enqueues at most its neighbours. *)
Definition search_budget (startVertex : value) : nat :=
  2 + sum_list ((λ u, S (length (getVertexNeighbors t u)))
                  <$> (startVertex :: mesh_values)).

Definition findShortestPath (startVertex endVertex : value)
  : option (list value) :=
  mjoin (findShortestPath_fuel (search_budget startVertex)
           startVertex endVertex).

End search.

(** ** The query interface *)

Inductive Query : Type :=
  | GetVertexNeighbors (vertexIndex : Z)
  | GetVertexIncidentFaces (vertexIndex : Z)
  | GetVertexIncidentEdges (vertexIndex : Z)
  | GetVertexValence (vertexIndex : Z)
  | GetFaceNeighbors (faceIndex : Z)
  | GetFaceVertices (faceIndex : Z)
  | GetFaceEdges (faceIndex : Z)
  | IsFaceOnBoundary (faceIndex : Z)
  | GetEdgeFaces (faceIndex edgeIndex : Z)
  | GetEdgeVertices (faceIndex edgeIndex : Z)
  | GetOppositeHalfEdge (faceIndex edgeIndex : Z)
  | IsEdgeOnBoundary (faceIndex edgeIndex : Z)
  | WalkAroundVertex (vertexIndex : Z) (startFaceIndex : option Z)
  | WalkAroundFace (faceIndex : Z)
  | FindShortestPath (startVertex endVertex : Z)
  | GetVertexCount
  | GetFaceCount.

Inductive Answer : Type :=
  | Vertices (vs : list value)
  | Faces (fs : list Z)
  | OptionalFaces (fs : list (option Z))
  | Edges (es : list EdgeDescriptor)
  | Number (n : Z)
  | Count (q : Q)
  | Boolean (b : bool)
  | VertexPair (p : value * value)
  | OptionalEdge (o : option EdgeDescriptor)
  | OptionalPath (o : option (list value)).

Inductive Error : Type := IndexOutOfRange.

(** What a call does: it returns a value or throws. *)
Inductive Outcome (A : Type) : Type :=
  | Returned (a : A)
  | Thrown (e : Error).
Arguments Returned {A} a.
Arguments Thrown {A} e.

Definition answer (t : Topology) (q : Query) : Answer :=
  match q with
  | GetVertexNeighbors v => Vertices (getVertexNeighbors t (Some v))
  | GetVertexIncidentFaces v => Faces (getVertexIncidentFaces t (Some v))
  | GetVertexIncidentEdges v => Edges (getVertexIncidentEdges t (Some v))
  | GetVertexValence v => Number (getVertexValence t (Some v))
  | GetFaceNeighbors f => Faces (getFaceNeighbors t f)
  | GetFaceVertices f => Vertices (getFaceVertices t f)
  | GetFaceEdges f => Edges (getFaceEdges f)
  | IsFaceOnBoundary f => Boolean (isFaceOnBoundary t f)
  | GetEdgeFaces f e => Faces (getEdgeFaces t f e)
  | GetEdgeVertices f e => VertexPair (getEdgeVertices t f e)
  | GetOppositeHalfEdge f e => OptionalEdge (getOppositeHalfEdge t f e)
  | IsEdgeOnBoundary f e => Boolean (isEdgeOnBoundary t f e)
  | WalkAroundVertex v s => Faces (walkAroundVertex t (Some v) s)
  | WalkAroundFace f => OptionalFaces (walkAroundFace t f)
  | FindShortestPath s e => OptionalPath (findShortestPath t (Some s) (Some e))
  | GetVertexCount => Count (getVertexCount t)
  | GetFaceCount => Count (getFaceCount t)
  end.

(** No query function contains a [throw], and the operations they use
    (array reads, [Set] and array methods, arithmetic) do not throw on
    numbers: every call returns. *)
Definition call (t : Topology) (q : Query) : Outcome Answer :=
  Returned (answer t q).

(** ** Valid indices *)

Definition valid_vertex (t : Topology) (v : Z) : Prop :=
  0 ≤ v ∧ (inject_Z v < getVertexCount t)%Q.

Definition valid_face (t : Topology) (f : Z) : Prop :=
  0 ≤ f ∧ (inject_Z f < getFaceCount t)%Q.

Definition valid_slot (e : Z) : Prop := e = 0 ∨ e = 1 ∨ e = 2.

(** The queries that take an index, and when that index is outside its
    range. *)
Definition out_of_range (t : Topology) (q : Query) : Prop :=
  match q with
  | GetVertexNeighbors v | GetVertexIncidentFaces v
  | GetVertexIncidentEdges v | GetVertexValence v => ¬ valid_vertex t v
  | GetFaceNeighbors f | GetFaceVertices f | GetFaceEdges f
  | IsFaceOnBoundary f | WalkAroundFace f => ¬ valid_face t f
  | GetEdgeFaces f e | GetEdgeVertices f e | GetOppositeHalfEdge f e
  | IsEdgeOnBoundary f e => ¬ valid_face t f ∨ ¬ valid_slot e
  | WalkAroundVertex _ _ | FindShortestPath _ _
  | GetVertexCount | GetFaceCount => False
  end.

(** The invariant of a mesh snapshot: the position buffer holds three
    coordinates per vertex; the index buffer, when present, holds three
    valid vertices per face; without it every three vertices make a
    face. *)
Definition well_formed (t : Topology) : Prop :=
  Z.of_nat (length (vertices t)) `mod` 3 = 0 ∧
  match indices t with
  | Some idx =>
      Z.of_nat (length idx) `mod` 3 = 0 ∧ Forall (valid_vertex t) idx
  | None => Z.of_nat (length (vertices t)) `mod` 9 = 0
  end.

(** The engine state right after construction or a rebuild from the
    snapshot [g]. *)
Definition in_sync (g : BufferGeometry) (t : Topology) : Prop :=
  t = createHalfEdgeTopology g.

(** ** The specification's reading of a face

    Vertex [i] of face [f] as the specification words it:
    [indices[3f + i]] with an index buffer, [3f + i] without. *)
Definition faceVertexIndices_spec (t : Topology) (f i : Z) : value :=
  match indices t with
  | Some idx => typed_get idx (3 * f + i)
  | None => Some (3 * f + i)
  end.

(** ** Vocabulary of the properties *)

(** The integers on which the arithmetic of JavaScript numbers is
    exact. *)
Definition safe_integer (z : Z) : Prop := - 2 ^ 53 ≤ z ≤ 2 ^ 53.

(** What a query returns for an index outside its range, as far as the
    source alone decides it. *)
Definition unchecked_answer (t : Topology) (q : Query) : Prop :=
  match q with
  | GetFaceEdges f => answer t q = Edges [(f, 0); (f, 1); (f, 2)]
  | GetFaceVertices f =>
      match indices t with
      | Some _ => answer t q = Vertices [None; None; None]
      | None =>
          safe_integer (f * 3) → safe_integer (f * 3 + 2) →
          answer t q
          = Vertices [Some (f * 3); Some (f * 3 + 1); Some (f * 3 + 2)]
      end
  | GetEdgeVertices f e =>
      (¬ valid_slot e → ∃ w, answer t q = VertexPair (None, w))
      ∧ (valid_slot e → is_Some (indices t) →
         answer t q = VertexPair (None, None))
  | GetEdgeFaces f e =>
      ∃ rest, answer t q = Faces (f :: rest) ∧ (length rest ≤ 1)%nat
  | GetFaceNeighbors f =>
      ∃ fs, answer t q = Faces fs ∧ (length fs ≤ 3)%nat
  | WalkAroundFace f =>
      ∃ fs, answer t q = OptionalFaces fs ∧ length fs = 3%nat
  | GetVertexIncidentFaces _ => well_formed t → answer t q = Faces []
  | GetVertexNeighbors _ => well_formed t → answer t q = Vertices []
  | GetVertexIncidentEdges _ => well_formed t → answer t q = Edges []
  | GetVertexValence _ => well_formed t → answer t q = Number 0
  | _ => True
  end.

(** The error the specification asks for. *)
Definition fails_out_of_range (t : Topology) (q : Query) : Prop :=
  out_of_range t q → call t q = Thrown IndexOutOfRange.

(** The face the walk looks at after [f]: the sibling across the slot
    two positions after the position of the vertex in [f]. *)
Definition next_face (t : Topology) (v : value) (f : Z) : Z :=
  HalfEdgeMap.getSiblingTriangleIndex (halfEdgeMap t) f
    ((indexOf (getFaceVertices t f) v + 2) `rem` 3).

(** The next face is a boundary, not incident to the vertex, or already
    visited. *)
Definition next_blocked (t : Topology) (v : value) (seen : list Z) (f : Z)
  : Prop :=
  next_face t v f = -1 ∨ next_face t v f ∉ getVertexIncidentFaces t v
  ∨ next_face t v f ∈ seen.

(** The vertex does not occur in the face. *)
Definition vertex_missing (t : Topology) (v : value) (f : Z) : Prop :=
  indexOf (getFaceVertices t f) v = -1.

(** A walk that follows [next_face] and ends exactly where [stop] holds
    of the faces visited so far and the current face. *)
Definition walk_obeys (stop : list Z → Z → Prop) (t : Topology) (v : value)
    (startFaceIndex : option Z) : Prop :=
  let fs := walkAroundVertex t v startFaceIndex in
  (∀ fuel, (S (length (getVertexIncidentFaces t v)) ≤ fuel)%nat →
     walkAroundVertex_fuel t fuel v startFaceIndex = Some fs)
  ∧ (∀ i f f', fs !! i = Some f → fs !! S i = Some f' → f' = next_face t v f)
  ∧ (∀ i f, fs !! i = Some f →
       fs !! S i = None ↔ stop (take (S i) fs) f).

(** The walk stops at [f]: the vertex is not in [f], or the next face
    is blocked. *)
Definition walk_stop (t : Topology) (v : value) (seen : list Z) (f : Z)
  : Prop :=
  vertex_missing t v f ∨ next_blocked t v seen f.

(** The faces of a walk from [f], [seen] being visited before. *)
Inductive walk_from (t : Topology) (v : value)
  : list Z → Z → list Z → Prop :=
  | walk_last seen f :
      walk_stop t v (seen ++ [f]) f → walk_from t v seen f [f]
  | walk_next seen f rest :
      ¬ walk_stop t v (seen ++ [f]) f →
      walk_from t v (seen ++ [f]) (next_face t v f) rest →
      walk_from t v seen f (f :: rest).

(** [p] leads from [a] to [b] along the edges of the graph. *)
Definition vertex_path (neighbors : value → list value) (a b : value)
    (p : list value) : Prop :=
  head p = Some a ∧ last p = Some b
  ∧ ∀ i u w, p !! i = Some u → p !! S i = Some w → w ∈ neighbors u.

(** [x] is the end of a path of [n] edges from [start]. *)
Inductive reach (neighbors : value → list value) (start : value)
  : nat → value → Prop :=
  | reach_start : reach neighbors start 0 start
  | reach_step n u w :
      reach neighbors start n u → w ∈ neighbors u →
      reach neighbors start (S n) w.

(** What the search owes for its result. *)
Definition search_result (neighbors : value → list value)
    (start target : value) (r : option (list value)) : Prop :=
  match r with
  | Some p =>
      vertex_path neighbors start target p
      ∧ ∀ m, reach neighbors start m target → (length p ≤ S m)%nat
  | None => ∀ m, ¬ reach neighbors start m target
  end.

(** An entry of the queue: a vertex and the path that leads to it. *)
Abbreviation entry := (value * list value)%type.

(** The state of the search: [k] is the number of edges of the paths
    in [qa], the front part of the queue; the paths of the rear part
    [qb] have one more. *)
Record bfs_inv (neighbors : value → list value) (start target : value)
    (k : nat) (visited : gset value) (qa qb : list entry) : Prop := {
  inv_front_paths : ∀ y q, (y, q) ∈ qa →
    vertex_path neighbors start y q ∧ length q = S k;
  inv_rear_paths : ∀ y q, (y, q) ∈ qb →
    vertex_path neighbors start y q ∧ length q = S (S k);
  inv_below : ∀ m x, (m < k)%nat → reach neighbors start m x → x ∈ visited;
  inv_level : ∀ x, reach neighbors start k x →
    x ∈ visited ∨ ∃ q, (x, q) ∈ qa;
  inv_edges : ∀ u w, u ∈ visited → w ∈ neighbors u →
    w ∈ visited ∨ ∃ q, (w, q) ∈ qa ++ qb;
  inv_target : target ∉ visited;
}.

(** The turns one vertex can cause: its own and one for each entry it
    enqueues. *)
Definition cost (neighbors : value → list value) (u : value) : nat :=
  S (length (neighbors u)).

(** The cost of the vertices of [domain] not yet visited. *)
Definition remaining (neighbors : value → list value) (domain : list value)
    (visited : gset value) : nat :=
  sum_list (cost neighbors <$> filter (.∉ visited) domain).

(** The inner loop of [getVertexNeighbors]: the vertices of a face
    other than the one at [pos] join the set. *)
Definition add_others (fv : list value) (pos : Z) (acc : list value)
  : list value :=
  foldl (λ s i, if decide (i ≠ pos) then set_add s (array_get fv i) else s)
        acc [0; 1; 2].

(** The outer loop of [getVertexNeighbors], from any set and over any
    list of faces. *)
Definition collect_neighbors (t : Topology) (v : value) (acc : list value)
    (faces : list Z) : list value :=
  foldl (λ neighbors faceIndex,
           let faceVertices := getFaceVertices t faceIndex in
           let vertexPos := indexOf faceVertices v in
           if decide (vertexPos ≠ -1)
           then foldl (λ s i,
                         if decide (i ≠ vertexPos)
                         then set_add s (array_get faceVertices i)
                         else s)
                      neighbors [0; 1; 2]
           else neighbors)
        acc faces.

(** The two descriptors [getVertexIncidentEdges] records for a face:
    the slot that starts at the vertex and the slot that ends at it. *)
Definition touching (t : Topology) (v : value) (f : Z)
  : list EdgeDescriptor :=
  let p := indexOf (getFaceVertices t f) v in [(f, p); (f, (p + 2) `rem` 3)].

(** ** Rebuilding through the map object *)

(** [update()] with the [updateFrom] of the map object as [rebuild]: the
    method works on the one object the closure holds and starts from
    the state that object is in. *)
Definition update_with
    (rebuild : HalfEdgeMap.t → BufferGeometry → HalfEdgeMap.t)
    (g : BufferGeometry) (t : Topology) : Topology :=
  {| vertices := position g;
     indices := index g;
     halfEdgeMap := rebuild (halfEdgeMap t) g |}.

(** Two states of the map answer every sibling lookup alike. *)
Definition same_lookups (h1 h2 : HalfEdgeMap.t) : Prop :=
  ∀ f e,
    HalfEdgeMap.getSiblingTriangleIndex h1 f e
    = HalfEdgeMap.getSiblingTriangleIndex h2 f e
    ∧ HalfEdgeMap.getSiblingEdgeIndex h1 f e
      = HalfEdgeMap.getSiblingEdgeIndex h2 f e.


(** Two engine states with the same buffers and the same lookups. *)
Definition same_view (t1 t2 : Topology) : Prop :=
  vertices t1 = vertices t2 ∧ indices t1 = indices t2
  ∧ same_lookups (halfEdgeMap t1) (halfEdgeMap t2).

(** ** Sample meshes *)

(** One triangle, no index buffer. *)
Definition triangle : BufferGeometry :=
  {| position := [0; 0; 0;  1; 0; 0;  0; 1; 0]%Q; index := None |}.

(** Two triangles (0,1,2) and (0,2,3) sharing the edge 0-2. *)
Definition quad : BufferGeometry :=
  {| position := [0; 0; 0;  1; 0; 0;  1; 1; 0;  0; 1; 0]%Q;
     index := Some [0; 1; 2; 0; 2; 3] |}.

(** A closed tetrahedron; face 0 is opposite to vertex 3. *)
Definition tetrahedron : BufferGeometry :=
  {| position := [0; 0; 0;  1; 0; 0;  0; 1; 0;  0; 0; 1]%Q;
     index := Some [0; 1; 2; 0; 3; 1; 1; 3; 2; 2; 3; 0] |}.

(** * Properties *)

#[local] Set Warnings "-clear-no-such-hyp".

(** ** The scenarios of the specification *)

(** A single triangle without index buffer. *)
Example triangle_scenario :
  let t := createHalfEdgeTopology triangle in
  (getFaceCount t == 1)%Q
  ∧ isFaceOnBoundary t 0 = true
  ∧ isEdgeOnBoundary t 0 <$> [0; 1; 2] = [true; true; true]
  ∧ getVertexValence t (Some 0) = 2
  ∧ findShortestPath t (Some 0) (Some 2) = Some [Some 0; Some 2].
Proof. vm_compute. repeat split. Qed.

(** Two triangles that share the edge 0-2. *)
Example quad_scenario :
  let t := createHalfEdgeTopology quad in
  getFaceNeighbors t 0 = [1]
  ∧ isEdgeOnBoundary t 0 <$> [0; 1; 2] = [true; true; false]
  ∧ isEdgeOnBoundary t 1 <$> [0; 1; 2] = [false; true; true]
  ∧ getOppositeHalfEdge t 0 2 = Some (1, 0)
  ∧ getVertexNeighbors t (Some 0) = [Some 1; Some 2; Some 3]
  ∧ findShortestPath t (Some 1) (Some 3) = Some [Some 1; Some 0; Some 3].
Proof. vm_compute. repeat split. Qed.

(** A closed surface: the walk around a vertex visits its three faces,
    and from a face that does not contain the vertex it goes nowhere. *)
Example tetrahedron_scenario :
  let t := createHalfEdgeTopology tetrahedron in
  isFaceOnBoundary t <$> [0; 1; 2; 3] = [false; false; false; false]
  ∧ walkAroundVertex t (Some 3) None = [1; 3; 2]
  ∧ walkAroundVertex t (Some 3) (Some 0) = [0].
Proof. vm_compute. repeat split. Qed.

(** ** Counts, ranges and array reads *)

Lemma Qlt_div_iff (a b d : Z) :
  0 < d → (inject_Z a < inject_Z b / inject_Z d)%Q ↔ a * d < b.
Proof.
  intros Hd. unfold Qlt, Qdiv, Qmult, Qinv, inject_Z. simpl.
  destruct d; try lia. simpl. lia.
Qed.

Lemma elem_of_loop_range len d i :
  0 < d → i ∈ loop_range len d ↔ 0 ≤ i ∧ i * d < len.
Proof.
  intros Hd. unfold loop_range. rewrite elem_of_seqZ. split.
  - intros [H0 H1]. split; [lia|].
    pose proof (Z.mul_div_le (len + d - 1) d Hd). nia.
  - intros [H0 H1]. split; [lia|]. simpl.
    pose proof (Z.div_le_lower_bound (len + d - 1) d (i + 1) Hd). nia.
Qed.

Lemma valid_vertex_iff t v :
  valid_vertex t v ↔ 0 ≤ v ∧ v * 3 < Z.of_nat (length (vertices t)).
Proof.
  unfold valid_vertex, getVertexCount.
  by rewrite (Qlt_div_iff v _ 3) by lia.
Qed.

Lemma valid_face_iff t f :
  valid_face t f ↔ f ∈ face_range (vertices t) (indices t).
Proof.
  unfold valid_face, getFaceCount, face_range. destruct (indices t).
  - rewrite (Qlt_div_iff f _ 3), elem_of_loop_range by lia. done.
  - rewrite (Qlt_div_iff f _ 9), elem_of_loop_range by lia. done.
Qed.

Lemma typed_get_Some idx i x :
  typed_get idx i = Some x ↔ 0 ≤ i ∧ idx !! Z.to_nat i = Some x.
Proof. unfold typed_get. case_decide; naive_solver. Qed.

Lemma typed_get_elem_of idx i x : typed_get idx i = Some x → x ∈ idx.
Proof. intros [_ H]%typed_get_Some. by eapply list_elem_of_lookup_2. Qed.

Lemma typed_get_None idx i :
  i < 0 ∨ Z.of_nat (length idx) ≤ i → typed_get idx i = None.
Proof.
  intros H. unfold typed_get. case_decide; [|done].
  apply lookup_ge_None. lia.
Qed.

Lemma array_get_3 (a b c : value) e :
  array_get [a; b; c] e
  = if decide (e = 0) then a else if decide (e = 1) then b
    else if decide (e = 2) then c else None.
Proof.
  unfold array_get. repeat case_decide; subst; try done; try lia.
  destruct (Z.to_nat e) as [|[|[|n]]] eqn:He; try lia. done.
Qed.

(** ** The half-edge map *)

Module HalfEdgeMapFacts.
Import HalfEdgeMap.

Lemma elem_of_half_edges g d :
  d ∈ half_edges g ↔
  d.1 ∈ face_range (position g) (index g) ∧ d.2 ∈ [0; 1; 2].
Proof.
  unfold half_edges. rewrite list_elem_of_bind. split.
  - intros (f & Hd & Hf). apply list_elem_of_fmap in Hd as (e & -> & He).
    done.
  - intros [Hf He]. exists d.1. split; [|done].
    apply list_elem_of_fmap. exists d.2. by destruct d.
Qed.

Lemma NoDup_half_edges g : NoDup (half_edges g).
Proof.
  unfold half_edges. apply NoDup_bind.
  - intros f1 f2 d _ _ H1 H2.
    apply list_elem_of_fmap in H1 as (e1 & -> & _).
    apply list_elem_of_fmap in H2 as (e2 & [= -> _] & _). done.
  - intros f _. apply NoDup_fmap_2; [intros e1 e2 [= ->]; done|].
    repeat constructor; set_solver.
  - unfold face_range, loop_range. destruct (index g); apply NoDup_seqZ.
Qed.

Lemma mate_involutive p : mate (mate p) = p.
Proof.
  unfold mate. destruct (Nat.even p) eqn:Hp.
  - rewrite Nat.even_succ, <- Nat.negb_even, Hp. done.
  - destruct p as [|p]; [done|]. simpl pred.
    rewrite Nat.even_succ, <- Nat.negb_even in Hp.
    apply negb_false_iff in Hp. rewrite Hp. done.
Qed.

Lemma same_edge_sym k1 k2 : same_edge k1 k2 → same_edge k2 k1.
Proof. destruct k1, k2. unfold same_edge. simpl. naive_solver. Qed.

Lemma same_edge_trans k1 k2 k3 :
  same_edge k1 k2 → same_edge k2 k3 → same_edge k1 k3.
Proof. destruct k1, k2, k3. unfold same_edge. simpl. naive_solver. Qed.

(** Every member of a group has that same group. *)
Lemma edge_group_eq g d d' :
  d' ∈ edge_group g d → edge_group g d' = edge_group g d.
Proof.
  unfold edge_group. intros [Hs _]%list_elem_of_filter.
  apply list_filter_iff. intros x. split; intros Hx.
  - eapply same_edge_trans; eauto.
  - eapply same_edge_trans; eauto using same_edge_sym.
Qed.

Lemma NoDup_edge_group g d : NoDup (edge_group g d).
Proof. apply NoDup_filter, NoDup_half_edges. Qed.

Lemma list_find_eq_NoDup {A} `{EqDecision A} (l : list A) i x :
  NoDup l → l !! i = Some x → list_find (x =.) l = Some (i, x).
Proof.
  intros Hl Hi. apply list_find_Some. split; [done|]. split; [done|].
  intros j y Hj Hlt <-. pose proof (NoDup_lookup _ _ _ _ Hl Hi Hj). lia.
Qed.

Lemma pair_up_Some g d d' :
  pair_up g d = Some d' →
  ∃ p, edge_group g d !! p = Some d ∧ edge_group g d !! mate p = Some d'.
Proof.
  unfold pair_up. destruct (list_find _ _) as [[p x]|] eqn:Hf; [|done].
  apply list_find_Some in Hf as (Hp & <- & _). eauto.
Qed.

(** The pairing is symmetric. *)
Lemma pair_up_sym g d d' : pair_up g d = Some d' → pair_up g d' = Some d.
Proof.
  intros (p & Hp & Hm)%pair_up_Some.
  assert (d' ∈ edge_group g d) as Hin
    by (eapply list_elem_of_lookup_2; eauto).
  unfold pair_up. rewrite (edge_group_eq _ _ _ Hin).
  rewrite (list_find_eq_NoDup _ _ _ (NoDup_edge_group g d) Hm).
  by rewrite mate_involutive.
Qed.

(** A sibling is a half-edge of the mesh. *)
Lemma pair_up_half_edge g d d' : pair_up g d = Some d' → d' ∈ half_edges g.
Proof.
  intros (p & _ & Hm)%pair_up_Some.
  apply list_elem_of_lookup_2 in Hm. unfold edge_group in Hm.
  by apply list_elem_of_filter in Hm as [_ ?].
Qed.

Lemma half_edge_bounds g d :
  d ∈ half_edges g → 0 ≤ d.1 ∧ valid_slot d.2.
Proof.
  intros [Hf He]%elem_of_half_edges. split.
  - unfold face_range in Hf.
    destruct (index g); apply elem_of_loop_range in Hf; lia.
  - unfold valid_slot. set_solver.
Qed.

(** The two accessors agree on whether there is a sibling. *)
Lemma sibling_indices_built g f e :
  let h := updateFrom g in
  (getSiblingTriangleIndex h f e = -1 ∧ getSiblingEdgeIndex h f e = -1
   ∧ pair_up g (f, e) = None)
  ∨ (∃ d, pair_up g (f, e) = Some d
        ∧ getSiblingTriangleIndex h f e = d.1
        ∧ getSiblingEdgeIndex h f e = d.2
        ∧ 0 ≤ d.1 ∧ valid_slot d.2).
Proof.
  unfold getSiblingTriangleIndex, getSiblingEdgeIndex. simpl.
  destruct (pair_up g (f, e)) as [d|] eqn:Hd; [right|left; done].
  exists d. pose proof (half_edge_bounds g d (pair_up_half_edge _ _ _ Hd)).
  naive_solver.
Qed.
End HalfEdgeMapFacts.

Import HalfEdgeMapFacts.

Lemma update_in_sync g t : in_sync g (update g t).
Proof. reflexivity. Qed.

Lemma create_in_sync g : in_sync g (createHalfEdgeTopology g).
Proof. reflexivity. Qed.

Lemma valid_slot_ne e : valid_slot e → e ≠ -1.
Proof. unfold valid_slot. lia. Qed.

(** ** Sibling pairing *)

(** C3: in an engine built from a snapshot, for a valid face [f] and an
    edge slot [e] in {0,1,2}, when [getOppositeHalfEdge f e] is a
    descriptor [(f', e')], [getOppositeHalfEdge f' e'] is [(f, e)]: the
    sibling pairing is symmetric. *)
Theorem opposite_half_edge_involutive g t f e f' e' :
  in_sync g t → valid_face t f → valid_slot e →
  getOppositeHalfEdge t f e = Some (f', e') →
  getOppositeHalfEdge t f' e' = Some (f, e).
Proof.
  intros -> [Hf _] He. unfold getOppositeHalfEdge. simpl halfEdgeMap.
  destruct (sibling_indices_built g f e) as [(-> & _)|(d & Hd & -> & -> & _)].
  { by rewrite decide_False by lia. }
  case_decide; [|done]. intros [= <- <-].
  apply pair_up_sym in Hd. destruct d as [df de]. simpl.
  destruct (sibling_indices_built g df de)
    as [(_ & _ & Hn)|(d' & Hd' & -> & -> & _)]; [congruence|].
  assert (d' = (f, e)) as -> by congruence. simpl.
  apply valid_slot_ne in He. rewrite decide_True by lia. done.
Qed.

Lemma opposite_half_edge_involutive_witness :
  getOppositeHalfEdge (createHalfEdgeTopology quad) 1 0 = Some (0, 2).
Proof.
  apply (opposite_half_edge_involutive quad _ 0 2 1 0).
  - reflexivity.
  - split; [lia|]. vm_compute. reflexivity.
  - right; right; reflexivity.
  - vm_compute. reflexivity.
Defined.

(** C4: in an engine built from a snapshot, for a valid half-edge
    [(f, e)], [isEdgeOnBoundary f e] is true exactly when
    [getOppositeHalfEdge f e] is [null]: the test on the sibling
    triangle alone and the test on both sibling indices coincide. *)
Theorem edge_boundary_iff_no_opposite g t f e :
  in_sync g t → valid_face t f → valid_slot e →
  isEdgeOnBoundary t f e = true ↔ getOppositeHalfEdge t f e = None.
Proof.
  intros -> _ _. unfold isEdgeOnBoundary, getOppositeHalfEdge.
  simpl halfEdgeMap. rewrite bool_decide_eq_true.
  destruct (sibling_indices_built g f e)
    as [(-> & -> & _)|(d & Hd & -> & -> & H1 & H2)].
  - by rewrite decide_False by lia.
  - apply valid_slot_ne in H2. rewrite decide_True by lia.
    split; [lia|done].
Qed.

Lemma edge_boundary_iff_no_opposite_witness :
  isEdgeOnBoundary (createHalfEdgeTopology quad) 0 0 = true
  ↔ getOppositeHalfEdge (createHalfEdgeTopology quad) 0 0 = None.
Proof.
  apply (edge_boundary_iff_no_opposite quad).
  - reflexivity.
  - split; [lia|]. vm_compute. reflexivity.
  - left; reflexivity.
Defined.

(** ** Edge end points *)

(** C6: for a valid face [f] and an edge slot [e] in {0,1,2},
    [getEdgeVertices f e] is the pair of vertex [e] and vertex
    [(e + 1) mod 3] of the face, a vertex of the face being read from
    the index buffer at [3f + i] when there is one and being [3f + i]
    when there is none. *)
Theorem edge_vertices_spec t f e :
  valid_face t f → valid_slot e →
  getEdgeVertices t f e
  = (faceVertexIndices_spec t f e,
     faceVertexIndices_spec t f ((e + 1) `mod` 3)).
Proof.
  intros _ He. unfold getEdgeVertices, getFaceVertices, face_triple,
    faceVertexIndices_spec.
  destruct (indices t) as [idx|]; rewrite !array_get_3;
    destruct He as [-> | [-> | ->]]; simpl.
  all: try change ((2 + 1) `mod` 3) with 0.
  all: repeat (f_equal; try lia).
Qed.

Lemma edge_vertices_spec_witness :
  getEdgeVertices (createHalfEdgeTopology quad) 1 2 = (Some 3, Some 0).
Proof.
  apply (edge_vertices_spec (createHalfEdgeTopology quad) 1 2).
  - split; [lia|]. vm_compute. reflexivity.
  - right; right; reflexivity.
Defined.

(** ** Rebuild *)


Section same_view_facts.
Variables t1 t2 : Topology.
Hypothesis view : same_view t1 t2.












End same_view_facts.



Lemma update_as_update_with g t :
  update g t = update_with (λ _ g, HalfEdgeMap.updateFrom g) g t.
Proof. reflexivity. Qed.


(** A rebuild that depends on the state it finds is not stable, and then
    the second [update()] does change an answer. *)
Definition toggling_rebuild (h : HalfEdgeMap.t) (g : BufferGeometry)
  : HalfEdgeMap.t :=
  {| HalfEdgeMap.sibling := λ d,
       match HalfEdgeMap.sibling h d with
       | Some _ => None
       | None => HalfEdgeMap.sibling (HalfEdgeMap.updateFrom g) d
       end |}.

Example unstable_rebuild_changes_answers :
  let t := createHalfEdgeTopology quad in
  call (update_with toggling_rebuild quad t) (IsEdgeOnBoundary 0 2)
  = Returned (Boolean true)
  ∧ call (update_with toggling_rebuild quad
            (update_with toggling_rebuild quad t)) (IsEdgeOnBoundary 0 2)
    = Returned (Boolean false).
Proof. vm_compute. split; reflexivity. Qed.

(** ** Indices outside their range *)

(** On a well-formed snapshot the vertices of a face are valid. *)
Lemma face_vertex_valid t f v :
  well_formed t → f ∈ face_range (vertices t) (indices t) →
  Some v ∈ getFaceVertices t f → valid_vertex t v.
Proof.
  intros [H3 Hwf] Hf Hv. unfold getFaceVertices, face_triple in Hv.
  unfold face_range in Hf. destruct (indices t) as [idx|].
  - destruct Hwf as [_ Hall]. rewrite Forall_forall in Hall.
    apply Hall. set_solver by eauto using typed_get_elem_of.
  - apply elem_of_loop_range in Hf; [|lia]. apply valid_vertex_iff.
    assert (v = f * 3 ∨ v = f * 3 + 1 ∨ v = f * 3 + 2) by set_solver.
    apply Z.mod_divide in Hwf as [k Hk]; lia.
Qed.

Lemma incident_faces_out_of_range t v :
  well_formed t → ¬ valid_vertex t v → getVertexIncidentFaces t (Some v) = [].
Proof.
  intros Hwf Hv. apply elem_of_nil_inv. intros f.
  unfold getVertexIncidentFaces, includes.
  rewrite list_elem_of_filter, bool_decide_eq_true.
  intros [Hin Hf]. eauto using face_vertex_valid.
Qed.

Lemma face_vertices_out_of_range t f :
  ¬ valid_face t f →
  getFaceVertices t f
  = match indices t with
    | Some _ => [None; None; None]
    | None => [Some (f * 3); Some (f * 3 + 1); Some (f * 3 + 2)]
    end.
Proof.
  rewrite valid_face_iff. unfold getFaceVertices, face_triple, face_range.
  destruct (indices t) as [idx|]; [|done].
  rewrite elem_of_loop_range by lia. intros Hf.
  rewrite !typed_get_None by lia. done.
Qed.

(** C1 (amended): no query checks its index.  For an index outside its
    range the call returns and never fails with [IndexOutOfRange]:
    [getFaceEdges] returns the three descriptors of the face;
    [getFaceVertices] returns three [undefined] with an index buffer
    and, without one, [3f, 3f+1, 3f+2] as long as these are safe
    integers; [getEdgeVertices] returns [undefined] for the first end
    when the slot is not in {0,1,2} and for both ends when the slot is
    but the face is outside an index buffer; [getEdgeFaces] returns
    the face followed by at most one more, [getFaceNeighbors] at most
    three faces and [walkAroundFace] three entries; on a well-formed
    snapshot the vertex queries return the empty list and the
    valence 0. *)
Theorem out_of_range_returns t q :
  out_of_range t q →
  call t q = Returned (answer t q) ∧ unchecked_answer t q.
Proof.
  intros Hq. split; [done|].
  destruct q; simpl in *; try done.
  - intros Hwf. unfold getVertexNeighbors.
    by rewrite incident_faces_out_of_range.
  - intros Hwf. by rewrite incident_faces_out_of_range.
  - intros Hwf. unfold getVertexIncidentEdges.
    by rewrite incident_faces_out_of_range.
  - intros Hwf. unfold getVertexValence, getVertexNeighbors.
    by rewrite incident_faces_out_of_range.
  - unfold getFaceNeighbors. simpl.
    repeat case_decide; eexists; (split; [done|]); simpl; lia.
  - rewrite face_vertices_out_of_range by done.
    by destruct (indices t).
  - unfold getEdgeFaces. case_decide; eexists; (split; [done|]); simpl; lia.
  - unfold getEdgeVertices. split.
    + intros He. eexists. do 2 f_equal.
      assert (length (getFaceVertices t faceIndex) = 3%nat) as Hlen
        by (unfold getFaceVertices, face_triple; by destruct (indices t)).
      unfold array_get. case_decide; [|done].
      rewrite lookup_ge_None_2; [done|]. unfold valid_slot in He. lia.
    + intros He [idx Hidx]. destruct Hq as [Hf|]; [|done].
      rewrite face_vertices_out_of_range, Hidx by done.
      rewrite !array_get_3. by repeat case_decide.
  - unfold walkAroundFace. simpl. by eexists.
Qed.

Lemma quad_well_formed : well_formed (createHalfEdgeTopology quad).
Proof.
  split; [reflexivity|]. split; [reflexivity|].
  simpl. repeat constructor; try lia; vm_compute; reflexivity.
Qed.

Lemma out_of_range_returns_witness :
  let t := createHalfEdgeTopology quad in
  out_of_range t (GetVertexNeighbors 9)
  ∧ call t (GetVertexNeighbors 9) = Returned (Vertices [])
  ∧ unchecked_answer t (GetVertexNeighbors 9).
Proof.
  assert (out_of_range (createHalfEdgeTopology quad) (GetVertexNeighbors 9))
    as H.
  { intros [_ H]%valid_vertex_iff. simpl in H. lia. }
  split; [exact H|].
  apply (out_of_range_returns (createHalfEdgeTopology quad)
           (GetVertexNeighbors 9) H).
Defined.

(** C1 as stated fails: on the quad, face 7, edge slot 5 and vertex 9
    are outside their ranges and the calls return. *)
Lemma index_out_of_range_counterexample :
  let t := createHalfEdgeTopology quad in
  (out_of_range t (GetFaceEdges 7)
   ∧ call t (GetFaceEdges 7) = Returned (Edges [(7, 0); (7, 1); (7, 2)]))
  ∧ (out_of_range t (GetFaceVertices 7)
     ∧ call t (GetFaceVertices 7) = Returned (Vertices [None; None; None]))
  ∧ (out_of_range t (GetEdgeVertices 0 5)
     ∧ call t (GetEdgeVertices 0 5) = Returned (VertexPair (None, Some 0)))
  ∧ (out_of_range t (GetVertexValence 9)
     ∧ call t (GetVertexValence 9) = Returned (Number 0))
  ∧ ¬ fails_out_of_range t (GetFaceEdges 7).
Proof.
  assert (∀ f, 2 ≤ f → ¬ valid_face (createHalfEdgeTopology quad) f) as Hf.
  { intros f Hf H%valid_face_iff. apply elem_of_loop_range in H; [|lia].
    simpl in H. lia. }
  assert (¬ valid_vertex (createHalfEdgeTopology quad) 9) as Hv.
  { intros [_ H]%valid_vertex_iff. simpl in H. lia. }
  assert (¬ valid_slot 5) as He by (unfold valid_slot; lia).
  simpl. split; [split; [apply Hf; lia|done]|].
  split; [split; [apply Hf; lia|done]|].
  split; [split; [by right|done]|].
  split; [split; [done|done]|].
  intros H. specialize (H (Hf 7 ltac:(lia))). discriminate.
Qed.

(** ** The walk around a vertex *)

Section walk.
Variables (t : Topology) (v : value).
Let inc := getVertexIncidentFaces t v.

#[local] Abbreviation walk_stop := (walk_stop t v).
#[local] Abbreviation walk_from := (walk_from t v).

Lemma walk_loop_from fuel visited seen cur r :
  (∀ x, x ∈ visited ↔ x ∈ seen) → cur ∉ seen →
  walk_loop t fuel v inc visited seen cur = Some r →
  ∃ rest, r = seen ++ rest ∧ walk_from seen cur rest.
Proof.
  revert visited seen cur.
  induction fuel as [|fuel IH]; intros visited seen cur Hvis Hcur; [done|].
  simpl. rewrite decide_False by (by rewrite Hvis).
  fold (next_face t v cur).
  assert (∀ x, x ∈ {[cur]} ∪ visited ↔ x ∈ seen ++ [cur]) as Hvis'.
  { intros x. rewrite elem_of_union, elem_of_singleton, elem_of_app,
      list_elem_of_singleton, Hvis. tauto. }
  case_decide as Hpos.
  - case_decide as Hnext.
    + intros Hr. apply IH in Hr as (rest & -> & Hrest);
        [|done|rewrite <- Hvis'; tauto].
      exists (cur :: rest). rewrite <- app_assoc. split; [done|].
      apply walk_next; [|done].
      unfold walk_stop, vertex_missing, next_blocked.
      rewrite <- Hvis'. tauto.
    + intros [= <-]. exists [cur]. split; [done|]. apply walk_last.
      right. unfold next_blocked. rewrite <- Hvis'.
      destruct (decide (next_face t v cur = -1)); [tauto|].
      destruct (decide (next_face t v cur ∈ inc)); [|tauto].
      destruct (decide (next_face t v cur ∈ {[cur]} ∪ visited)); tauto.
  - intros [= <-]. exists [cur]. split; [done|]. apply walk_last.
    left. unfold vertex_missing. lia.
Qed.

(** More fuel does not change a result. *)
Lemma walk_loop_mono fuel fuel' visited seen cur r :
  (fuel ≤ fuel')%nat →
  walk_loop t fuel v inc visited seen cur = Some r →
  walk_loop t fuel' v inc visited seen cur = Some r.
Proof.
  revert fuel' visited seen cur.
  induction fuel as [|fuel IH]; intros [|fuel'] visited seen cur Hle;
    try done; try lia.
  simpl. repeat case_decide; try done. apply IH. lia.
Qed.

(** The loop ends: each turn visits a new incident face. *)
Lemma walk_loop_terminates fuel visited seen cur :
  cur ∈ inc → cur ∉ visited →
  (length (filter (.∉ visited) inc) ≤ fuel)%nat →
  is_Some (walk_loop t fuel v inc visited seen cur).
Proof.
  revert visited seen cur.
  induction fuel as [|fuel IH]; intros visited seen cur Hin Hcur Hlen.
  - assert (cur ∈ filter (.∉ visited) inc) as Hf
      by (by apply list_elem_of_filter).
    destruct (filter _ inc); [by apply elem_of_nil in Hf|simpl in Hlen; lia].
  - simpl. rewrite decide_False by done.
    repeat case_decide; try done.
    apply IH; [tauto|tauto|].
    assert (length (filter (.∉ {[cur]} ∪ visited) inc)
            < length (filter (.∉ visited) inc))%nat; [|lia].
    rewrite <- (list_filter_filter_l (.∉ {[cur]} ∪ visited) (.∉ visited))
      by set_solver.
    apply (length_filter_lt _ _ cur); [|set_solver].
    by apply list_elem_of_filter.
Qed.
End walk.

Section walk_result.
Variables (t : Topology) (v : value).

Lemma walk_from_head seen cur rest :
  walk_from t v seen cur rest → rest !! 0%nat = Some cur.
Proof. by destruct 1. Qed.

Lemma walk_from_lookup seen cur rest :
  walk_from t v seen cur rest →
  ∀ i f, rest !! i = Some f →
    (∀ f', rest !! S i = Some f' → f' = next_face t v f)
    ∧ (rest !! S i = None ↔ walk_stop t v (seen ++ take (S i) rest) f).
Proof.
  induction 1 as [seen cur Hstop|seen cur rest Hgo Hrest IH];
    intros [|i] f Hf; simplify_eq/=.
  - split; [done|]. split; [done|]. by destruct 1.
  - apply walk_from_head in Hrest. split.
    + intros f'. rewrite Hrest. congruence.
    + rewrite Hrest, take_0. split; [done|]. intros Hs. by destruct Hgo.
  - destruct (IH i f Hf) as [IH1 IH2]. split; [done|].
    by rewrite IH2, <- app_assoc.
Qed.

Lemma walk_loop_start_terminates fuel cur :
  (S (length (getVertexIncidentFaces t v)) ≤ fuel)%nat →
  is_Some (walk_loop t fuel v (getVertexIncidentFaces t v) ∅ [] cur).
Proof.
  destruct fuel as [|fuel]; [lia|]. intros Hfuel. simpl.
  repeat case_decide; try done.
  apply walk_loop_terminates; [tauto|tauto|].
  etrans; [apply length_filter|lia].
Qed.
(** From a start face that does not contain the vertex the walk is
    that face alone, whatever the half-edge map says. *)
Lemma walk_from_foreign_face start :
  getVertexIncidentFaces t v ≠ [] → vertex_missing t v start →
  walkAroundVertex t v (Some start) = [start].
Proof.
  unfold walkAroundVertex, walkAroundVertex_fuel, vertex_missing.
  destruct (getVertexIncidentFaces t v) as [|first inc']; [done|].
  intros _ Hpos. simpl. rewrite decide_False by set_solver.
  by rewrite decide_False by lia.
Qed.
End walk_result.

(** C5 (amended): for every valid vertex and any start face the walk
    terminates; each step moves from the current face to the sibling
    across the slot two positions after the position of the vertex; and
    the walk stops exactly when the current face does not contain the
    vertex, or the next face is a boundary, not incident to the vertex
    or already visited. *)
Theorem walk_around_vertex_rule t v start :
  valid_vertex t v →
  walk_obeys (walk_stop t (Some v)) t (Some v) start.
Proof.
  intros _. unfold walk_obeys, walkAroundVertex, walkAroundVertex_fuel.
  destruct (getVertexIncidentFaces t (Some v)) as [|first inc'] eqn:Hinc.
  { simpl. split; [done|]. split; intros i f; by rewrite lookup_nil. }
  rewrite <- Hinc. clear Hinc.
  set (cur := default first start).
  destruct (walk_loop_start_terminates t (Some v) _ cur (Nat.le_refl _))
    as [fs Hfs].
  rewrite Hfs. simpl. split.
  { intros fuel Hfuel. eapply walk_loop_mono; eauto. }
  apply walk_loop_from in Hfs as (rest & -> & Hrest);
    [|set_solver|set_solver].
  simpl. split.
  - intros i f f' Hf. by apply (walk_from_lookup _ _ _ _ _ Hrest).
  - intros i f Hf.
    by apply (walk_from_lookup _ _ _ _ _ Hrest) in Hf as [_ ?].
Qed.

Lemma walk_around_vertex_rule_witness :
  let t := createHalfEdgeTopology tetrahedron in
  valid_vertex t 3
  ∧ walk_obeys (walk_stop t (Some 3)) t (Some 3) (Some 0).
Proof.
  assert (valid_vertex (createHalfEdgeTopology tetrahedron) 3) as H.
  { apply valid_vertex_iff. simpl. lia. }
  split; [exact H|].
  apply (walk_around_vertex_rule (createHalfEdgeTopology tetrahedron) 3
           (Some 0) H).
Defined.

(** C5 as stated fails: around vertex 3 of the tetrahedron, from the
    face opposite to it, the walk is that face alone, although across
    each of its slots lies an incident face not yet visited. *)
Lemma walk_around_vertex_counterexample :
  let t := createHalfEdgeTopology tetrahedron in
  valid_vertex t 3
  ∧ walkAroundVertex t (Some 3) (Some 0) = [0]
  ∧ getVertexIncidentFaces t (Some 3) = [1; 2; 3]
  ∧ HalfEdgeMap.getSiblingTriangleIndex (halfEdgeMap t) 0 <$> [0; 1; 2]
    = [1; 2; 3]
  ∧ ¬ walk_obeys (next_blocked t (Some 3)) t (Some 3) (Some 0).
Proof.
  simpl. split; [apply valid_vertex_iff; simpl; lia|].
  split; [vm_compute; reflexivity|].
  assert (getVertexIncidentFaces (createHalfEdgeTopology tetrahedron) (Some 3)
          = [1; 2; 3]) as Hinc by (vm_compute; reflexivity).
  split; [exact Hinc|]. split; [vm_compute; reflexivity|].
  intros (_ & _ & Hstop).
  assert (walkAroundVertex (createHalfEdgeTopology tetrahedron) (Some 3)
            (Some 0) = [0]) as Hw by (vm_compute; reflexivity).
  rewrite Hw in Hstop. specialize (Hstop 0%nat 0 eq_refl) as [Hstop _].
  specialize (Hstop eq_refl). unfold next_blocked in Hstop.
  rewrite Hinc in Hstop.
  assert (next_face (createHalfEdgeTopology tetrahedron) (Some 3) 0 = 2)
    as Hn by (vm_compute; reflexivity).
  rewrite Hn in Hstop. simpl in Hstop. set_solver.
Qed.

(** ** Breadth-first search *)

Section bfs.
Variable neighbors : value → list value.
Variables start target : value.

#[local] Abbreviation reach := (reach neighbors start).
#[local] Abbreviation bfs_inv := (bfs_inv neighbors start target).
#[local] Abbreviation search_result := (search_result neighbors start target).

Lemma vertex_path_start : vertex_path neighbors start start [start].
Proof.
  split; [done|]. split; [done|]. intros [|i] u w; by rewrite ?lookup_nil.
Qed.

Lemma vertex_path_snoc u w p :
  vertex_path neighbors start u p → w ∈ neighbors u →
  vertex_path neighbors start w (p ++ [w]).
Proof.
  intros (Hh & Hl & Hs) Hw. split; [|split].
  - destruct p; [done|]. done.
  - by rewrite last_snoc.
  - intros i x y Hx Hy.
    destruct (decide (S i < length p)%nat) as [Hi|Hi].
    + rewrite lookup_app_l in Hx, Hy by lia. eauto.
    + assert (S i = length p) as Hlen.
      { apply lookup_lt_Some in Hy. rewrite length_app in Hy. simpl in Hy.
        lia. }
      rewrite lookup_app_l in Hx by lia.
      rewrite Hlen, lookup_app_r, Nat.sub_diag in Hy by lia.
      simplify_eq/=. rewrite last_lookup in Hl.
      replace (pred (length p)) with i in Hl by lia. by simplify_eq.
Qed.

Lemma vertex_path_reach b p :
  vertex_path neighbors start b p → reach (pred (length p)) b.
Proof.
  revert b. induction p as [|w p IH] using rev_ind; intros b (Hh & Hl & Hs).
  { done. }
  rewrite last_snoc in Hl. simplify_eq.
  destruct p as [|a p'] using rev_ind.
  { simpl in *. simplify_eq. constructor. }
  clear IHp'. rewrite !length_app. simpl.
  replace (pred (length p' + 1 + 1)) with (S (pred (length (p' ++ [a]))))
    by (rewrite length_app; simpl; lia).
  apply reach_step with a.
  - apply IH. split; [|split].
    + destruct p'; done.
    + by rewrite last_snoc.
    + intros i u w Hu Hw. apply (Hs i).
      * by apply lookup_app_l_Some.
      * by apply lookup_app_l_Some.
  - apply (Hs (length p')).
    + rewrite lookup_app_l by (rewrite length_app; simpl; lia).
      by rewrite lookup_app_r, Nat.sub_diag by lia.
    + rewrite lookup_app_r by (rewrite length_app; simpl; lia).
      rewrite length_app. simpl.
      by replace (S (length p') - (length p' + 1))%nat with 0%nat by lia.
Qed.

(** The loop body's [for]: the unvisited neighbours are appended in
    order. *)
Lemma enqueue_neighbors (visited : gset value) path
    (queue : list entry) l :
  foldl (λ queue neighbor,
           if decide (neighbor ∉ visited)
           then queue ++ [(neighbor, path ++ [neighbor])]
           else queue) queue l
  = queue ++ ((λ n, (n, path ++ [n])) <$> filter (.∉ visited) l).
Proof.
  revert queue. induction l as [|n l IH]; intros queue; simpl.
  { by rewrite app_nil_r. }
  rewrite IH. case_decide.
  - rewrite filter_cons_True by done. by rewrite <- app_assoc.
  - by rewrite filter_cons_False by (by intros ?).
Qed.

Lemma bfs_inv_init : bfs_inv 0 ∅ [(start, [start])] [].
Proof.
  split.
  - intros y q Hin%list_elem_of_singleton. simplify_eq.
    split; [apply vertex_path_start|done].
  - intros y q Hin. by apply elem_of_nil in Hin.
  - intros; lia.
  - intros x Hx. assert (x = start) as -> by (by inversion Hx).
    right. exists [start]. by apply list_elem_of_singleton.
  - set_solver.
  - set_solver.
Qed.

(** When the front part is used up the rear part becomes the front. *)
Lemma bfs_inv_level_up k visited qb :
  bfs_inv k visited [] qb → bfs_inv (S k) visited qb [].
Proof.
  intros [Ha Hb Hbelow Hlevel Hedges Htarget].
  assert (∀ x, reach k x → x ∈ visited) as Hk.
  { intros x [?|[q Hq]]%Hlevel; [done|]. by apply elem_of_nil in Hq. }
  split; try done.
  - intros y q Hin. by apply elem_of_nil in Hin.
  - intros m x Hm Hx. destruct (decide (m = k)) as [->|]; [by apply Hk|].
    apply (Hbelow m); [lia|done].
  - intros x Hx. inversion Hx as [|n u w Hu Hw]; subst.
    destruct (Hedges u x (Hk _ Hu) Hw) as [?|[q Hq]]; [by left|].
    right. by exists q.
  - intros u w Hu Hw. rewrite app_nil_r. apply Hedges in Hw; done.
Qed.

(** The head of the queue was visited before: it is dropped. *)
Lemma bfs_inv_skip k visited v p qa qb :
  bfs_inv k visited ((v, p) :: qa) qb → v ∈ visited →
  bfs_inv k visited qa qb.
Proof.
  intros [Ha Hb Hbelow Hlevel Hedges Htarget] Hv. split; try done.
  - intros y q Hin. apply Ha. by right.
  - intros x [?|[q Hq]]%Hlevel; [by left|].
    apply elem_of_cons in Hq as [?|?]; simplify_eq; [by left|].
    right. by exists q.
  - intros u w Hu Hw. destruct (Hedges u w Hu Hw) as [?|[q Hq]]; [by left|].
    simpl in Hq. apply elem_of_cons in Hq as [?|?]; simplify_eq; [by left|].
    right. by exists q.
Qed.

(** The head of the queue is new and is not the target: it is marked
    and its unvisited neighbours join the rear. *)
Lemma bfs_inv_expand k visited v p qa qb :
  bfs_inv k visited ((v, p) :: qa) qb → v ∉ visited → v ≠ target →
  bfs_inv k ({[v]} ∪ visited) qa
    (qb ++ ((λ n, (n, p ++ [n]))
              <$> filter (.∉ {[v]} ∪ visited) (neighbors v))).
Proof.
  intros [Ha Hb Hbelow Hlevel Hedges Htarget] Hv Hne.
  destruct (Ha v p) as [Hp Hlen]; [by left|].
  split.
  - intros y q Hin. apply Ha. by right.
  - intros y q [Hin|Hin]%elem_of_app; [by apply Hb|].
    apply list_elem_of_fmap in Hin as (n & ? & [_ Hn]%list_elem_of_filter).
    simplify_eq. split; [by apply vertex_path_snoc with v|].
    rewrite length_app. simpl. lia.
  - intros m x Hm Hx. apply elem_of_union_r. by apply (Hbelow m).
  - intros x [?|[q Hq]]%Hlevel; [left; set_solver|].
    apply elem_of_cons in Hq as [?|?]; simplify_eq; [left; set_solver|].
    right. by exists q.
  - intros u w Hu Hw.
    destruct (decide (w ∈ {[v]} ∪ visited)) as [|Hnew]; [by left|]. right.
    apply elem_of_union in Hu as [->%elem_of_singleton|Hu].
    + exists (p ++ [w]). rewrite !elem_of_app. right; right.
      apply list_elem_of_fmap. exists w. split; [done|].
      by apply list_elem_of_filter.
    + destruct (Hedges u w Hu Hw) as [?|[q Hq]]; [set_solver|].
      simpl in Hq. apply elem_of_cons in Hq as [?|Hq]; simplify_eq.
      { set_solver. }
      exists q. rewrite app_assoc. apply elem_of_app. by left.
  - set_solver.
Qed.

(** Without entries every reachable vertex has been visited. *)
Lemma bfs_inv_exhausted k visited :
  bfs_inv k visited [] [] → ∀ m, ¬ reach m target.
Proof.
  intros [Ha Hb Hbelow Hlevel Hedges Htarget] m Hm. apply Htarget.
  clear Htarget. induction Hm as [|n u w Hu IH Hw].
  - destruct k as [|k]; [|apply (Hbelow 0%nat); [lia|constructor]].
    destruct (Hlevel start) as [?|[q Hq]]; [constructor|done|].
    by apply elem_of_nil in Hq.
  - destruct (Hedges u w IH Hw) as [?|[q Hq]]; [done|].
    by apply elem_of_nil in Hq.
Qed.

Lemma bfs_loop_correct fuel k visited qa qb r :
  bfs_inv k visited qa qb →
  bfs_loop neighbors target fuel visited (qa ++ qb) = Some r →
  search_result r.
Proof.
  revert k visited qa qb r.
  induction fuel as [|fuel IH]; intros k visited qa qb r Hinv; [done|].
  assert (∃ k' qa' qb', qa ++ qb = qa' ++ qb' ∧ bfs_inv k' visited qa' qb'
                        ∧ (qa' = [] → qb' = []))
    as (k' & qa' & qb' & -> & Hinv' & Hnil).
  { destruct qa as [|e qa].
    - exists (S k), qb, []. rewrite app_nil_r.
      split; [done|]. split; [by apply bfs_inv_level_up|done].
    - exists k, (e :: qa), qb. done. }
  clear k qa qb Hinv. destruct qa' as [|[v p] qa].
  { rewrite Hnil in * by done. simpl. intros [= <-].
    exact (bfs_inv_exhausted _ _ Hinv'). }
  simpl. case_decide as Hv.
  { apply IH with k'. by eapply bfs_inv_skip. }
  case_decide as Ht.
  - intros [= <-]. subst v. destruct Hinv' as [Ha _ Hbelow _ _ Htarget].
    destruct (Ha target p) as [Hp Hlen]; [by left|].
    split; [done|]. intros m Hm. rewrite Hlen.
    destruct (decide (m < k')%nat); [|lia].
    destruct Htarget. by apply (Hbelow m).
  - rewrite enqueue_neighbors, <- app_assoc. apply IH with k'.
    by apply bfs_inv_expand.
Qed.
End bfs.

Section bfs_termination.
Variable neighbors : value → list value.
Variable target : value.

#[local] Abbreviation cost := (cost neighbors).
#[local] Abbreviation remaining := (remaining neighbors).

Lemma remaining_mono (domain : list value) (visited visited' : gset value) :
  visited ⊆ visited' →
  (remaining domain visited' ≤ remaining domain visited)%nat.
Proof.
  intros Hsub. unfold remaining.
  induction domain as [|a l IH]; [done|].
  destruct (decide (a ∈ visited')) as [Ha'|Ha'].
  - rewrite (filter_cons_False _ a l) by (by intros ?).
    destruct (decide (a ∈ visited)).
    + by rewrite (filter_cons_False _ a l) by (by intros ?).
    + rewrite (filter_cons_True _ a l) by done. csimpl. unfold cost in *. lia.
  - rewrite !filter_cons_True by set_solver. csimpl. unfold cost in *. lia.
Qed.

Lemma remaining_bound (domain : list value) (visited : gset value) :
  (remaining domain visited ≤ sum_list (cost <$> domain))%nat.
Proof.
  unfold remaining. induction domain as [|a l IH]; [done|].
  destruct (decide (a ∈ visited)).
  - rewrite (filter_cons_False _ a l) by (by intros ?). csimpl. lia.
  - rewrite (filter_cons_True _ a l) by done. csimpl. lia.
Qed.

Lemma remaining_visit (domain : list value) (visited : gset value) v :
  v ∈ domain → v ∉ visited →
  (cost v + remaining domain ({[v]} ∪ visited)
   ≤ remaining domain visited)%nat.
Proof.
  intros Hin Hv. unfold remaining.
  induction domain as [|a l IH]; [by apply elem_of_nil in Hin|].
  destruct (decide (a = v)) as [->|Hne].
  - rewrite (filter_cons_False _ v l) by set_solver.
    rewrite (filter_cons_True _ v l) by done. csimpl.
    pose proof (remaining_mono l visited ({[v]} ∪ visited)) as Hm.
    unfold remaining in Hm. specialize (Hm ltac:(set_solver)). unfold cost in *. lia.
  - apply elem_of_cons in Hin as [?|Hin]; [done|]. specialize (IH Hin).
    destruct (decide (a ∈ visited)).
    + rewrite !filter_cons_False by set_solver. done.
    + rewrite !filter_cons_True by set_solver. csimpl. unfold cost in *. lia.
Qed.

Variable domain : list value.
Hypothesis domain_closed : ∀ u w, w ∈ neighbors u → w ∈ domain.

(** The loop ends within the cost of the unvisited vertices plus the
    length of the queue. *)
Lemma bfs_loop_terminates fuel visited (queue : list (value * list value)) :
  Forall (λ e, e.1 ∈ domain) queue →
  (length queue + remaining domain visited < fuel)%nat →
  is_Some (bfs_loop neighbors target fuel visited queue).
Proof.
  revert visited queue.
  induction fuel as [|fuel IH]; intros visited queue Hq Hlen; [lia|].
  destruct queue as [|[v p] queue]; [done|]. simpl.
  apply Forall_cons in Hq as [Hv Hq]. simpl in Hv, Hlen.
  case_decide; [apply IH; [done|lia]|].
  case_decide; [done|].
  rewrite enqueue_neighbors. apply IH.
  - apply Forall_app. split; [done|]. apply Forall_fmap, Forall_forall.
    intros w [_ Hw]%list_elem_of_filter. simpl. by eapply domain_closed.
  - rewrite length_app, length_fmap.
    pose proof (length_filter (.∉ {[v]} ∪ visited) (neighbors v)).
    pose proof (remaining_visit domain visited v Hv ltac:(done)).
    unfold cost in *. lia.
Qed.

(** More fuel does not change a result. *)
Lemma bfs_loop_mono fuel fuel' visited queue r :
  (fuel ≤ fuel')%nat →
  bfs_loop neighbors target fuel visited queue = Some r →
  bfs_loop neighbors target fuel' visited queue = Some r.
Proof.
  revert fuel' visited queue.
  induction fuel as [|fuel IH]; intros [|fuel'] visited queue Hle;
    try done; try lia.
  simpl. destruct queue as [|[v p] queue]; [done|].
  repeat case_decide; try done; apply IH; lia.
Qed.
End bfs_termination.

(** ** The path search on a mesh *)

Section search_facts.
Variable t : Topology.

Lemma face_triple_length idx f : length (face_triple idx f) = 3%nat.
Proof. by destruct idx. Qed.

Lemma set_add_elem s x y : y ∈ set_add s x → y ∈ s ∨ y = x.
Proof.
  unfold set_add. case_decide; [by left|].
  rewrite elem_of_app, list_elem_of_singleton. done.
Qed.

Lemma array_get_elem (fv : list value) i :
  length fv = 3%nat → i = 0 ∨ i = 1 ∨ i = 2 → array_get fv i ∈ fv.
Proof.
  destruct fv as [|a [|b [|c [|]]]]; try done. intros _ Hi.
  rewrite array_get_3. repeat case_decide; try lia; set_solver.
Qed.

Lemma other_vertices_elem (fv : list value) pos acc w :
  length fv = 3%nat →
  w ∈ foldl (λ s i, if decide (i ≠ pos) then set_add s (array_get fv i)
                    else s) acc [0; 1; 2] →
  w ∈ acc ∨ w ∈ fv.
Proof.
  intros Hlen. simpl.
  pose proof (array_get_elem fv 0 Hlen ltac:(lia)).
  pose proof (array_get_elem fv 1 Hlen ltac:(lia)).
  pose proof (array_get_elem fv 2 Hlen ltac:(lia)).
  repeat case_decide; intros Hw;
    repeat (apply set_add_elem in Hw as [Hw| ->]); auto.
Qed.

(** A neighbour is a vertex of some face of the mesh. *)
Lemma neighbors_in_mesh u w :
  w ∈ getVertexNeighbors t u → w ∈ mesh_values t.
Proof.
  unfold getVertexNeighbors, mesh_values, getVertexIncidentFaces.
  set (faces := filter _ _).
  assert (∀ f, f ∈ faces → f ∈ face_range (vertices t) (indices t)) as Hf.
  { intros f [_ ?]%list_elem_of_filter. done. }
  intros Hw.
  assert (w ∈ @nil value ∨ ∃ f, f ∈ faces ∧ w ∈ getFaceVertices t f)
    as [Hnil|(f & Hin & Hwf)].
  { revert Hw. generalize (@nil value). clear Hf.
    induction faces as [|f faces IH]; intros acc Hw; [by left|].
    simpl in Hw. apply IH in Hw as [Hw|(f' & ? & ?)].
    - case_decide; [|by left].
      apply other_vertices_elem in Hw as [?|?];
        [by left| |apply face_triple_length].
      right. exists f. split; [by left|done].
    - right. exists f'. split; [by right|done]. }
  { by apply elem_of_nil in Hnil. }
  apply list_elem_of_bind. exists f. split; [done|]. by apply Hf.
Qed.

Lemma search_terminates fuel s e :
  (search_budget t s ≤ fuel)%nat →
  is_Some (findShortestPath_fuel t fuel s e).
Proof.
  intros Hfuel. unfold findShortestPath_fuel. case_decide; [done|].
  apply bfs_loop_terminates with (domain := s :: mesh_values t).
  - intros u w Hw. right. by eapply neighbors_in_mesh.
  - apply Forall_singleton. by left.
  - pose proof (remaining_bound (getVertexNeighbors t)
                  (s :: mesh_values t) ∅) as Hb.
    unfold search_budget in Hfuel. unfold cost in Hb. simpl in *. lia.
Qed.

Lemma search_fuel_enough fuel s e :
  (search_budget t s ≤ fuel)%nat →
  findShortestPath_fuel t fuel s e = Some (findShortestPath t s e).
Proof.
  intros Hfuel. unfold findShortestPath.
  destruct (search_terminates _ s e (Nat.le_refl _)) as [r Hr].
  rewrite Hr. simpl. revert Hr. unfold findShortestPath_fuel.
  case_decide; [done|]. by apply bfs_loop_mono.
Qed.

Lemma search_correct s e :
  search_result (getVertexNeighbors t) s e (findShortestPath t s e).
Proof.
  unfold findShortestPath.
  destruct (search_terminates _ s e (Nat.le_refl _)) as [r Hr].
  rewrite Hr. simpl. revert Hr. unfold findShortestPath_fuel.
  case_decide as Hse.
  - intros [= <-]. subst e. split; [apply vertex_path_start|].
    simpl. lia.
  - apply (bfs_loop_correct _ _ _ _ 0 ∅ [(s, [s])] []), bfs_inv_init.
Qed.
End search_facts.

Lemma reach_vertex_path neighbors a b n :
  reach neighbors a n b →
  ∃ p, vertex_path neighbors a b p ∧ length p = S n.
Proof.
  induction 1 as [|n u w Hu (p & Hp & Hlen) Hw].
  - exists [a]. split; [apply vertex_path_start|done].
  - exists (p ++ [w]). split; [by eapply vertex_path_snoc|].
    rewrite length_app. simpl. lia.
Qed.

(** C2: for valid vertices [s] and [e] the search ends; its result,
    when it is a path, starts at [s], ends at [e], steps only from a
    vertex to one of its [getVertexNeighbors], and no such path has
    fewer edges; it is [[s]] when [s = e], and it is [null] exactly
    when no path leads from [s] to [e]. *)
Theorem find_shortest_path_correct t s e :
  valid_vertex t s → valid_vertex t e →
  let adjacent := getVertexNeighbors t in
  let found := findShortestPath t (Some s) (Some e) in
  (∀ fuel, (search_budget t (Some s) ≤ fuel)%nat →
     findShortestPath_fuel t fuel (Some s) (Some e) = Some found)
  ∧ (s = e → found = Some [Some s])
  ∧ (∀ p, found = Some p →
       vertex_path adjacent (Some s) (Some e) p
       ∧ ∀ q, vertex_path adjacent (Some s) (Some e) q →
              (length p ≤ length q)%nat)
  ∧ (found = None ↔ ¬ ∃ q, vertex_path adjacent (Some s) (Some e) q).
Proof.
  intros _ _ adjacent found.
  pose proof (search_correct t (Some s) (Some e)) as Hres. fold found in Hres.
  split; [intros fuel; apply search_fuel_enough|].
  split.
  { intros ->. subst found.
    pose proof (search_fuel_enough t _ (Some e) (Some e) (Nat.le_refl _))
      as Hfuel.
    unfold findShortestPath_fuel in Hfuel.
    rewrite decide_True in Hfuel by done. congruence. }
  split.
  - intros p Hp. rewrite Hp in Hres. destruct Hres as [Hpath Hmin].
    split; [done|]. intros q Hq.
    pose proof (vertex_path_reach _ _ _ _ Hq) as Hr. apply Hmin in Hr.
    destruct q; [by destruct Hq|]. simpl in *. lia.
  - destruct found as [p|]; simpl in Hres.
    + split; [done|]. intros Hno. destruct Hno. exists p. apply Hres.
    + split; [|done]. intros _ [q Hq].
      by apply vertex_path_reach, Hres in Hq.
Qed.

Lemma find_shortest_path_correct_witness :
  let t := createHalfEdgeTopology quad in
  let found := findShortestPath t (Some 1) (Some 3) in
  found = Some [Some 1; Some 0; Some 3]
  ∧ (∀ q, vertex_path (getVertexNeighbors t) (Some 1) (Some 3) q →
          (3 ≤ length q)%nat).
Proof.
  assert (∀ v, 0 ≤ v < 4 → valid_vertex (createHalfEdgeTopology quad) v) as Hv.
  { intros v Hv. apply valid_vertex_iff. simpl. lia. }
  destruct (find_shortest_path_correct (createHalfEdgeTopology quad) 1 3
              (Hv 1 ltac:(lia)) (Hv 3 ltac:(lia))) as (_ & _ & Hpath & _).
  simpl. split; [vm_compute; reflexivity|].
  apply (Hpath [Some 1; Some 0; Some 3]). vm_compute. reflexivity.
Defined.

(** * Further properties of the queries *)

(** ** Faces and edges *)

(** X1: a face is on the boundary exactly when one of its three edge
    slots is a boundary edge. *)
Theorem face_boundary_iff_edge_boundary t f :
  isFaceOnBoundary t f = true
  ↔ ∃ e, valid_slot e ∧ isEdgeOnBoundary t f e = true.
Proof.
  unfold isFaceOnBoundary, isEdgeOnBoundary, valid_slot. simpl.
  rewrite !orb_true_iff. split.
  - intros [H|[H|[H|H]]]; [exists 0|exists 1|exists 2|discriminate];
      split; auto.
  - intros (e & [-> | [-> | ->]] & H); auto.
Qed.

(** X2: [walkAroundFace] has three entries, and its entries other than
    [null], in order, are [getFaceNeighbors]. *)
Theorem walk_around_face_neighbors t f :
  length (walkAroundFace t f) = 3%nat
  ∧ omap id (walkAroundFace t f) = getFaceNeighbors t f.
Proof.
  unfold walkAroundFace, getFaceNeighbors. simpl. split; [done|].
  repeat case_decide; done.
Qed.

(** X3: a face is on the boundary exactly when [getFaceNeighbors]
    returns fewer than three faces. *)
Theorem face_boundary_iff_missing_neighbor t f :
  isFaceOnBoundary t f = true ↔ (length (getFaceNeighbors t f) < 3)%nat.
Proof.
  unfold isFaceOnBoundary, getFaceNeighbors. simpl.
  rewrite !orb_true_iff, !bool_decide_eq_true.
  repeat case_decide; simpl; lia.
Qed.

(** X4: for a slot in {0,1,2}, [getEdgeFaces] is the face followed by
    the entry of [walkAroundFace] for that slot when it is not [null],
    and it is the face alone exactly on a boundary edge. *)
Theorem edge_faces_from_walk t f e :
  valid_slot e →
  getEdgeFaces t f e
  = f :: option_list (mjoin (walkAroundFace t f !! Z.to_nat e))
  ∧ (isEdgeOnBoundary t f e = true ↔ getEdgeFaces t f e = [f]).
Proof.
  unfold getEdgeFaces, isEdgeOnBoundary, walkAroundFace.
  rewrite bool_decide_eq_true.
  intros [-> | [-> | ->]]; simpl; case_decide; split; try done;
    split; try done; try lia.
Qed.

Lemma edge_faces_from_walk_witness :
  let t := createHalfEdgeTopology quad in
  getEdgeFaces t 0 2 = [0; 1] ∧ getEdgeFaces t 0 0 = [0].
Proof.
  destruct (edge_faces_from_walk (createHalfEdgeTopology quad) 0 2) as [H2 _];
    [right; right; reflexivity|].
  destruct (edge_faces_from_walk (createHalfEdgeTopology quad) 0 0) as [_ H0];
    [left; reflexivity|].
  split; [rewrite H2; vm_compute; reflexivity|].
  apply H0. vm_compute. reflexivity.
Defined.

(** X5: when [getOppositeHalfEdge] finds a sibling across a slot in
    {0,1,2}, the edge is not a boundary edge, [getEdgeFaces] is the
    face and the sibling's face, and that face is among
    [getFaceNeighbors] and is the entry of [walkAroundFace] for the
    slot. *)
Theorem opposite_half_edge_consistent t f e f' e' :
  valid_slot e → getOppositeHalfEdge t f e = Some (f', e') →
  isEdgeOnBoundary t f e = false
  ∧ getEdgeFaces t f e = [f; f']
  ∧ f' ∈ getFaceNeighbors t f
  ∧ walkAroundFace t f !! Z.to_nat e = Some (Some f').
Proof.
  unfold getOppositeHalfEdge, isEdgeOnBoundary, getEdgeFaces,
    getFaceNeighbors, walkAroundFace.
  intros He. case_decide as Hs; [|done]. destruct Hs as [Hs _].
  intros [= <- <-]. rewrite bool_decide_eq_false_2 by done.
  rewrite decide_True by done. split; [done|]. split; [done|].
  destruct He as [-> | [-> | ->]]; simpl.
  all: rewrite ?(decide_True _ _ Hs); split; [|done].
  all: repeat case_decide; set_solver.
Qed.

Lemma opposite_half_edge_consistent_witness :
  let t := createHalfEdgeTopology quad in
  isEdgeOnBoundary t 0 2 = false
  ∧ getEdgeFaces t 0 2 = [0; 1]
  ∧ 1 ∈ getFaceNeighbors t 0
  ∧ walkAroundFace t 0 !! Z.to_nat 2 = Some (Some 1).
Proof.
  apply (opposite_half_edge_consistent (createHalfEdgeTopology quad)
           0 2 1 0).
  - right; right; reflexivity.
  - vm_compute. reflexivity.
Defined.

(** ** Vertices *)

Section vertex_facts.
Variable t : Topology.

#[local] Abbreviation collect_neighbors := (collect_neighbors t).

Lemma indexOf_elem (a : list value) x :
  x ∈ a →
  ∃ i, indexOf a x = Z.of_nat i ∧ a !! i = Some x
       ∧ ∀ j, (j < i)%nat → a !! j ≠ Some x.
Proof.
  intros Hx. unfold indexOf.
  destruct (list_find_elem_of (x =.) a x Hx eq_refl) as [[i y] Hf].
  rewrite Hf. apply list_find_Some in Hf as (Hi & <- & Hmin).
  exists i. split; [done|]. split; [done|].
  intros j Hj Hl. by apply (Hmin j x).
Qed.

Lemma indexOf_missing (a : list value) x : indexOf a x = -1 ↔ x ∉ a.
Proof.
  split.
  - intros Hi Hx. apply indexOf_elem in Hx as (i & Hi' & _). lia.
  - intros Hx. unfold indexOf.
    destruct (list_find _ a) as [[i y]|] eqn:Hf; [|done].
    apply list_find_Some in Hf as (Hi & <- & _).
    destruct Hx. by eapply list_elem_of_lookup_2.
Qed.

(** The position of a vertex in a face that contains it. *)
Lemma face_position f v :
  v ∈ getFaceVertices t f →
  valid_slot (indexOf (getFaceVertices t f) v)
  ∧ array_get (getFaceVertices t f) (indexOf (getFaceVertices t f) v) = v.
Proof.
  intros Hv. destruct (indexOf_elem _ _ Hv) as (i & Hi & Hl & _).
  rewrite Hi. pose proof (lookup_lt_Some _ _ _ Hl) as Hlen.
  unfold getFaceVertices in Hlen. rewrite face_triple_length in Hlen.
  split; [unfold valid_slot; lia|].
  unfold array_get. rewrite decide_True by lia.
  by rewrite Nat2Z.id, Hl.
Qed.

Lemma array_get_slot (fv : list value) i :
  length fv = 3%nat → valid_slot i →
  fv !! Z.to_nat i = Some (array_get fv i).
Proof.
  destruct fv as [|a [|b [|c [|]]]]; try done.
  by intros _ [-> | [-> | ->]].
Qed.

Lemma elem_of_incident_faces v f :
  f ∈ getVertexIncidentFaces t v
  ↔ valid_face t f ∧ v ∈ getFaceVertices t f.
Proof.
  unfold getVertexIncidentFaces, includes.
  rewrite list_elem_of_filter, bool_decide_eq_true, valid_face_iff. tauto.
Qed.

Lemma NoDup_incident_faces v : NoDup (getVertexIncidentFaces t v).
Proof.
  apply NoDup_filter. unfold face_range, loop_range.
  destruct (indices t); apply NoDup_seqZ.
Qed.

Lemma set_add_iff s x y : y ∈ set_add s x ↔ y ∈ s ∨ y = x.
Proof.
  unfold set_add. case_decide.
  - split; [by left|]. by intros [?| ->].
  - by rewrite elem_of_app, list_elem_of_singleton.
Qed.

Lemma set_add_NoDup s x : NoDup s → NoDup (set_add s x).
Proof.
  unfold set_add. case_decide; [done|]. intros Hs.
  apply NoDup_app. split; [done|]. split; [|apply NoDup_singleton].
  intros y Hy ->%list_elem_of_singleton. done.
Qed.

Lemma set_add_length s x : (length (set_add s x) ≤ S (length s))%nat.
Proof.
  unfold set_add. case_decide; [lia|]. rewrite length_app. simpl. lia.
Qed.

Lemma elem_of_add_others fv pos acc w :
  w ∈ add_others fv pos acc
  ↔ w ∈ acc ∨ ∃ i, valid_slot i ∧ i ≠ pos ∧ array_get fv i = w.
Proof.
  unfold add_others.
  assert (valid_slot_list : ∀ i, valid_slot i ↔ i ∈ [0; 1; 2]).
  { intros i. unfold valid_slot. rewrite !elem_of_cons, elem_of_nil. tauto. }
  setoid_rewrite valid_slot_list. generalize [0; 1; 2]. intros l.
  revert acc. induction l as [|j l IH]; intros acc; simpl.
  { split; [by left|]. intros [?|(i & Hi & _)]; [done|].
    by apply elem_of_nil in Hi. }
  rewrite IH. case_decide as Hj.
  - rewrite set_add_iff. split.
    + intros [[?| ->]|(i & ? & ? & ?)]; [by left|right..].
      * exists j. split; [by left|done].
      * exists i. split; [by right|done].
    + intros [?|(i & [->|?]%elem_of_cons & ? & ?)].
      * by left; left.
      * left; right. done.
      * right. by exists i.
  - split.
    + intros [?|(i & ? & ? & ?)]; [by left|right].
      exists i. split; [by right|done].
    + intros [?|(i & [->|?]%elem_of_cons & ? & ?)]; [by left| |].
      * by destruct Hj.
      * right. by exists i.
Qed.

Lemma NoDup_add_others fv pos acc : NoDup acc → NoDup (add_others fv pos acc).
Proof.
  unfold add_others. simpl. intros Hacc.
  repeat case_decide; auto using set_add_NoDup.
Qed.

Lemma add_others_length fv pos acc :
  valid_slot pos →
  (length (add_others fv pos acc) ≤ 2 + length acc)%nat.
Proof.
  intros Hpos. unfold add_others.
  assert (∀ l acc,
    (length (foldl (λ s i, if decide (i ≠ pos)
                           then set_add s (array_get fv i) else s) acc l)
     ≤ length (filter (.≠ pos) l) + length acc)%nat) as Hgen.
  { clear acc. induction l as [|j l IH]; intros acc; simpl; [lia|].
    etrans; [apply IH|]. case_decide.
    - rewrite filter_cons_True by done. simpl.
      pose proof (set_add_length acc (array_get fv j)). lia.
    - rewrite filter_cons_False by (by intros ?). lia. }
  etrans; [apply Hgen|]. by destruct Hpos as [-> | [-> | ->]].
Qed.

Lemma collect_neighbors_cons v acc f faces :
  collect_neighbors v acc (f :: faces)
  = collect_neighbors v
      (if decide (indexOf (getFaceVertices t f) v ≠ -1)
       then add_others (getFaceVertices t f)
              (indexOf (getFaceVertices t f) v) acc
       else acc) faces.
Proof. reflexivity. Qed.

Lemma elem_of_collect_neighbors v acc faces w :
  (∀ f, f ∈ faces → v ∈ getFaceVertices t f) →
  w ∈ collect_neighbors v acc faces
  ↔ w ∈ acc
    ∨ ∃ f i, f ∈ faces ∧ valid_slot i
             ∧ i ≠ indexOf (getFaceVertices t f) v
             ∧ array_get (getFaceVertices t f) i = w.
Proof.
  revert acc. induction faces as [|f faces IH]; intros acc Hfaces.
  { simpl. split; [by left|]. intros [?|(f & i & Hf & _)]; [done|].
    by apply elem_of_nil in Hf. }
  rewrite collect_neighbors_cons, decide_True
    by (rewrite indexOf_missing; intros Hn; apply Hn, Hfaces; by left).
  rewrite IH by (intros; apply Hfaces; by right).
  rewrite elem_of_add_others. split.
  - intros [[?|(i & ? & ? & ?)]|(f' & i & ? & ?)]; [by left|right..].
    + exists f, i. split; [by left|done].
    + exists f', i. split; [by right|done].
  - intros [?|(f' & i & [->|Hf']%elem_of_cons & ?)].
    + by left; left.
    + left; right. by exists i.
    + right. by exists f', i.
Qed.

Lemma NoDup_collect_neighbors v acc faces :
  NoDup acc → NoDup (collect_neighbors v acc faces).
Proof.
  revert acc. induction faces as [|f faces IH]; intros acc Hacc; [done|].
  rewrite collect_neighbors_cons.
  apply IH. case_decide; [|done]. by apply NoDup_add_others.
Qed.

Lemma collect_neighbors_length v acc faces :
  (∀ f, f ∈ faces → v ∈ getFaceVertices t f) →
  (length (collect_neighbors v acc faces) ≤ 2 * length faces + length acc)%nat.
Proof.
  revert acc. induction faces as [|f faces IH]; intros acc Hfaces.
  { simpl. lia. }
  rewrite collect_neighbors_cons, decide_True
    by (rewrite indexOf_missing; intros Hn; apply Hn, Hfaces; by left).
  etrans; [apply IH; intros; apply Hfaces; by right|].
  pose proof (add_others_length (getFaceVertices t f)
                (indexOf (getFaceVertices t f) v) acc) as Hlen.
  specialize (Hlen (proj1 (face_position f v (Hfaces f ltac:(by left))))).
  simpl length. lia.
Qed.

Lemma incident_faces_contain v f :
  f ∈ getVertexIncidentFaces t v → v ∈ getFaceVertices t f.
Proof. by intros [_ ?]%elem_of_incident_faces. Qed.

Lemma elem_of_neighbors v w :
  w ∈ getVertexNeighbors t v
  ↔ ∃ f i, f ∈ getVertexIncidentFaces t v ∧ valid_slot i
           ∧ i ≠ indexOf (getFaceVertices t f) v
           ∧ array_get (getFaceVertices t f) i = w.
Proof.
  change (getVertexNeighbors t v)
    with (collect_neighbors v [] (getVertexIncidentFaces t v)).
  rewrite elem_of_collect_neighbors by apply incident_faces_contain.
  split; [|by right]. intros [Hnil|?]; [|done]. by apply elem_of_nil in Hnil.
Qed.

(** One direction of the symmetry of the neighbour relation. *)
Lemma neighbors_sym v w :
  w ∈ getVertexNeighbors t v → v ∈ getVertexNeighbors t w.
Proof.
  intros Hw. pose proof Hw as (f & i & Hf & Hi & Hne & Hget)%elem_of_neighbors.
  apply elem_of_incident_faces in Hf as [Hvalid Hv].
  assert (w ∈ getFaceVertices t f) as Hwf.
  { rewrite <- Hget. apply array_get_elem; [apply face_triple_length|done]. }
  destruct (face_position f v Hv) as [Hpv Hgv].
  destruct (face_position f w Hwf) as [Hpw Hgw].
  destruct (decide (indexOf (getFaceVertices t f) v
                    = indexOf (getFaceVertices t f) w)) as [Heq|Hneq].
  - rewrite Heq, Hgw in Hgv. by subst.
  - apply elem_of_neighbors.
    exists f, (indexOf (getFaceVertices t f) v).
    split; [by apply elem_of_incident_faces|done].
Qed.
End vertex_facts.

(** ** Paths *)

Section path_facts.
Variable neighbors : value → list value.

(** A path entered twice at [x] can be cut short. *)
Lemma lookup_shortcut (p : list value) i j k :
  (i < j)%nat → (j < length p)%nat →
  (take (S i) p ++ drop (S j) p) !! k
  = if decide (k ≤ i)%nat then p !! k else p !! (k + (j - i))%nat.
Proof.
  intros Hij Hj. rewrite lookup_app, lookup_take.
  case_decide; case_decide; try lia.
  - destruct (lookup_lt_is_Some_2 p k ltac:(lia)) as [x ->]. done.
  - rewrite lookup_drop, length_take. f_equal. lia.
Qed.

Lemma vertex_path_shortcut a b p i j x :
  vertex_path neighbors a b p →
  p !! i = Some x → p !! j = Some x → (i < j)%nat →
  vertex_path neighbors a b (take (S i) p ++ drop (S j) p).
Proof.
  intros (Hh & Hl & Hs) Hi Hj Hij.
  pose proof (lookup_lt_Some _ _ _ Hj) as Hlen.
  rewrite head_lookup in Hh. rewrite last_lookup in Hl.
  split; [|split].
  - rewrite head_lookup, lookup_shortcut by lia.
    by rewrite decide_True by lia.
  - rewrite last_lookup, lookup_shortcut by lia.
    rewrite length_app, length_take, length_drop.
    case_decide.
    + replace (pred (S i `min` length p + (length p - S j)))%nat with i by lia.
      rewrite Hi, <- Hj, <- Hl. f_equal. lia.
    + rewrite <- Hl. f_equal. lia.
  - intros k u w. rewrite !lookup_shortcut by lia.
    repeat case_decide; try lia.
    + apply Hs.
    + assert (k = i) as -> by lia. rewrite Hi. intros [= <-] Hw.
      apply (Hs j); [done|]. rewrite <- Hw. f_equal. lia.
    + replace (S k + (j - i))%nat with (S (k + (j - i))) by lia. apply Hs.
Qed.

Lemma shortcut_length (p : list value) i j :
  (i < j)%nat → (j < length p)%nat →
  (length (take (S i) p ++ drop (S j) p) < length p)%nat.
Proof.
  intros. rewrite length_app, length_take, length_drop. lia.
Qed.

(** A path with the fewest vertices visits none twice. *)
Lemma shortest_path_NoDup a b p :
  vertex_path neighbors a b p →
  (∀ q, vertex_path neighbors a b q → (length p ≤ length q)%nat) →
  NoDup p.
Proof.
  intros Hp Hmin. apply NoDup_alt.
  assert (∀ i j x, p !! i = Some x → p !! j = Some x → ¬ (i < j)%nat) as Hno.
  { intros i j x Hi Hj Hij.
    pose proof (vertex_path_shortcut _ _ _ _ _ _ Hp Hi Hj Hij) as Hq.
    apply Hmin in Hq.
    pose proof (shortcut_length p i j Hij (lookup_lt_Some _ _ _ Hj)). lia. }
  intros i j x Hi Hj.
  destruct (Nat.lt_trichotomy i j) as [Hlt|[?|Hlt]]; [|done|].
  - by destruct (Hno i j x).
  - by destruct (Hno j i x).
Qed.

Hypothesis symmetric : ∀ u w, w ∈ neighbors u → u ∈ neighbors w.

(** In a symmetric graph a path can be walked backwards. *)
Lemma vertex_path_reverse a b p :
  vertex_path neighbors a b p → vertex_path neighbors b a (reverse p).
Proof.
  intros (Hh & Hl & Hs). split; [|split].
  - by rewrite head_reverse.
  - by rewrite last_reverse.
  - intros i u w Hu Hw.
    apply reverse_lookup_Some in Hu as [Hu Hi].
    apply reverse_lookup_Some in Hw as [Hw Hi'].
    apply symmetric. apply (Hs (length p - S (S i))%nat); [done|].
    rewrite <- Hu. f_equal. lia.
Qed.
End path_facts.

Section search_more.
Variable t : Topology.

Lemma found_path_minimal s e p :
  findShortestPath t s e = Some p →
  vertex_path (getVertexNeighbors t) s e p
  ∧ ∀ q, vertex_path (getVertexNeighbors t) s e q →
         (length p ≤ length q)%nat.
Proof.
  intros Hp. pose proof (search_correct t s e) as Hres.
  rewrite Hp in Hres. destruct Hres as [Hpath Hmin]. split; [done|].
  intros q Hq. pose proof (vertex_path_reach _ _ _ _ Hq) as Hr.
  apply Hmin in Hr. destruct q; [by destruct Hq|]. simpl in *. lia.
Qed.

Lemma not_found_no_path s e q :
  findShortestPath t s e = None →
  ¬ vertex_path (getVertexNeighbors t) s e q.
Proof.
  intros Hn Hq. pose proof (search_correct t s e) as Hres.
  rewrite Hn in Hres. by apply vertex_path_reach, Hres in Hq.
Qed.

Lemma found_reverse_bound a b p :
  findShortestPath t a b = Some p →
  ∃ q, findShortestPath t b a = Some q ∧ (length q ≤ length p)%nat.
Proof.
  intros [Hp _]%found_path_minimal.
  apply (vertex_path_reverse _ (neighbors_sym t)) in Hp.
  destruct (findShortestPath t b a) as [q|] eqn:Hq.
  - exists q. split; [done|].
    apply found_path_minimal in Hq as [_ Hmin].
    apply Hmin in Hp. by rewrite length_reverse in Hp.
  - by apply not_found_no_path with (q := reverse p) in Hq.
Qed.
End search_more.

(** ** Statements *)

(** X6: [getVertexIncidentFaces] lists, without repetition, exactly
    the valid faces that contain the vertex. *)
Theorem vertex_incident_faces_spec t v :
  NoDup (getVertexIncidentFaces t v)
  ∧ ∀ f, f ∈ getVertexIncidentFaces t v
         ↔ valid_face t f ∧ v ∈ getFaceVertices t f.
Proof.
  split; [apply NoDup_incident_faces|apply elem_of_incident_faces].
Qed.

(** X7: [getVertexNeighbors] has no duplicates; it holds exactly the
    vertices found in an incident face at a position other than the
    first position of the vertex; each of them is a vertex of an
    incident face. *)
Theorem vertex_neighbors_spec t v :
  NoDup (getVertexNeighbors t v)
  ∧ (∀ w, w ∈ getVertexNeighbors t v
          ↔ ∃ f i, f ∈ getVertexIncidentFaces t v ∧ valid_slot i
                   ∧ i ≠ indexOf (getFaceVertices t f) v
                   ∧ array_get (getFaceVertices t f) i = w)
  ∧ (∀ w, w ∈ getVertexNeighbors t v →
          ∃ f, f ∈ getVertexIncidentFaces t v ∧ w ∈ getFaceVertices t f).
Proof.
  split; [|split; [apply elem_of_neighbors|]].
  - change (getVertexNeighbors t v)
      with (collect_neighbors t v [] (getVertexIncidentFaces t v)).
    apply NoDup_collect_neighbors. constructor.
  - intros w (f & i & Hf & Hi & _ & <-)%elem_of_neighbors.
    exists f. split; [done|].
    apply array_get_elem; [apply face_triple_length|done].
Qed.

(** X8: the neighbour relation is symmetric. *)
Theorem vertex_neighbors_symmetric t v w :
  w ∈ getVertexNeighbors t v ↔ v ∈ getVertexNeighbors t w.
Proof. split; apply neighbors_sym. Qed.

(** X9: the valence is at most twice the number of incident faces. *)
Theorem vertex_valence_bound t v :
  0 ≤ getVertexValence t v
       ≤ 2 * Z.of_nat (length (getVertexIncidentFaces t v)).
Proof.
  unfold getVertexValence.
  change (getVertexNeighbors t v)
    with (collect_neighbors t v [] (getVertexIncidentFaces t v)).
  pose proof (collect_neighbors_length t v []
                (getVertexIncidentFaces t v) (incident_faces_contain t v)).
  simpl in *. lia.
Qed.

(** X13: a path is found from [a] to [b] exactly when one is found
    from [b] to [a], and the two have the same length. *)
Theorem shortest_path_symmetric t a b :
  (findShortestPath t a b = None ↔ findShortestPath t b a = None)
  ∧ ∀ p q, findShortestPath t a b = Some p →
           findShortestPath t b a = Some q → length p = length q.
Proof.
  split.
  - split; intros Hn.
    + destruct (findShortestPath t b a) as [q|] eqn:Hq; [|done].
      apply found_reverse_bound in Hq as (p & Hp & _). congruence.
    + destruct (findShortestPath t a b) as [p|] eqn:Hp; [|done].
      apply found_reverse_bound in Hp as (q & Hq & _). congruence.
  - intros p q Hp Hq.
    destruct (found_reverse_bound t a b p Hp) as (q' & Hq' & Hle1).
    destruct (found_reverse_bound t b a q Hq) as (p' & Hp' & Hle2).
    simplify_eq. lia.
Qed.

(** X14: a path returned by [findShortestPath] visits no vertex
    twice. *)
Theorem shortest_path_simple t s e p :
  findShortestPath t s e = Some p → NoDup p.
Proof.
  intros [Hp Hmin]%found_path_minimal.
  by apply (shortest_path_NoDup (getVertexNeighbors t) s e).
Qed.

Lemma shortest_path_simple_witness :
  NoDup [Some 1; Some 0; Some 3].
Proof.
  apply (shortest_path_simple (createHalfEdgeTopology quad)
           (Some 1) (Some 3)).
  vm_compute. reflexivity.
Defined.

(** X15: from a vertex without neighbours no other vertex is
    reached. *)
Theorem isolated_vertex_no_path t s e :
  getVertexNeighbors t s = [] → s ≠ e → findShortestPath t s e = None.
Proof.
  intros Hiso Hne.
  destruct (findShortestPath t s e) as [p|] eqn:Hp; [|done].
  apply found_path_minimal in Hp as [(Hh & Hl & Hs) _].
  destruct p as [|x [|y p]]; simplify_eq/=.
  specialize (Hs 0%nat s y eq_refl eq_refl). rewrite Hiso in Hs.
  by apply elem_of_nil in Hs.
Qed.

Lemma isolated_vertex_no_path_witness :
  findShortestPath (createHalfEdgeTopology quad) (Some 7) (Some 0) = None.
Proof.
  apply (isolated_vertex_no_path (createHalfEdgeTopology quad)
           (Some 7) (Some 0)).
  - vm_compute. reflexivity.
  - discriminate.
Defined.

(** ** Incident edges *)

Section incident_edges.
Variable t : Topology.

#[local] Abbreviation touching := (touching t).

Lemma incident_edges_fold v acc faces :
  (∀ f, f ∈ faces → v ∈ getFaceVertices t f) →
  foldl (λ edges faceIndex,
           let faceVertices := getFaceVertices t faceIndex in
           let vertexPos := indexOf faceVertices v in
           if decide (vertexPos ≠ -1)
           then edges ++ [(faceIndex, vertexPos);
                          (faceIndex, (vertexPos + 2) `rem` 3)]
           else edges) acc faces
  = acc ++ (faces ≫= touching v).
Proof.
  revert acc. induction faces as [|f faces IH]; intros acc Hfaces; simpl.
  { by rewrite app_nil_r. }
  rewrite decide_True
    by (rewrite indexOf_missing; intros Hn; apply Hn, Hfaces; by left).
  rewrite IH by (intros; apply Hfaces; by right).
  by rewrite <- app_assoc.
Qed.

Lemma incident_edges_bind v :
  getVertexIncidentEdges t v = getVertexIncidentFaces t v ≫= touching v.
Proof.
  unfold getVertexIncidentEdges.
  by rewrite incident_edges_fold by apply incident_faces_contain.
Qed.

Lemma touching_end v f e :
  v ∈ getFaceVertices t f → (f, e) ∈ touching v f →
  valid_slot e
  ∧ (v = (getEdgeVertices t f e).1 ∨ v = (getEdgeVertices t f e).2).
Proof.
  intros Hv He. destruct (face_position t f v Hv) as [Hp Hg].
  unfold touching in He. unfold getEdgeVertices. simpl.
  apply elem_of_cons in He as [[= ->]|[= ->]%list_elem_of_singleton].
  - split; [done|]. by left.
  - destruct Hp as [Hp|[Hp|Hp]]; rewrite Hp in *; simpl;
      (split; [unfold valid_slot; simpl; auto|by right]).
Qed.
End incident_edges.

(** X10: [getVertexIncidentEdges] returns two descriptors for each
    incident face; each has an incident face, a slot in {0,1,2}, and
    the vertex as one end of [getEdgeVertices]. *)
Theorem vertex_incident_edges_spec t v :
  length (getVertexIncidentEdges t v)
  = (2 * length (getVertexIncidentFaces t v))%nat
  ∧ ∀ f e, (f, e) ∈ getVertexIncidentEdges t v →
      f ∈ getVertexIncidentFaces t v ∧ valid_slot e
      ∧ (v = (getEdgeVertices t f e).1 ∨ v = (getEdgeVertices t f e).2).
Proof.
  rewrite incident_edges_bind. split.
  - induction (getVertexIncidentFaces t v) as [|f l IH]; [done|].
    rewrite bind_cons, length_app, IH. simpl. lia.
  - intros f e (f' & He & Hf)%list_elem_of_bind.
    assert (f' = f) as ->.
    { unfold touching in He. set_solver. }
    split; [done|]. eapply touching_end; [|done].
    by apply incident_faces_contain.
Qed.

(** ** The faces of a walk *)

Section walk_more.
Variables (t : Topology) (v : value).

Lemma walk_continues seen f :
  ¬ walk_stop t v seen f →
  next_face t v f ∈ getVertexIncidentFaces t v ∧ next_face t v f ∉ seen.
Proof.
  unfold walk_stop, next_blocked. intros Hgo.
  destruct (decide (next_face t v f ∈ getVertexIncidentFaces t v));
    [|tauto].
  split; [done|]. tauto.
Qed.

Lemma walk_from_faces seen cur rest :
  walk_from t v seen cur rest → NoDup seen → cur ∉ seen →
  NoDup (seen ++ rest)
  ∧ ∀ f, f ∈ tail rest → f ∈ getVertexIncidentFaces t v.
Proof.
  induction 1 as [seen cur Hstop|seen cur rest Hgo Hrest IH];
    intros Hseen Hcur.
  - split; [|by intros f ?%elem_of_nil].
    apply NoDup_app. split; [done|]. split; [|apply NoDup_singleton].
    intros x Hx ->%list_elem_of_singleton. done.
  - apply walk_continues in Hgo as [Hinc Hnew].
    destruct IH as [IH1 IH2]; [|done|].
    { apply NoDup_app. split; [done|]. split; [|apply NoDup_singleton].
      intros x Hx ->%list_elem_of_singleton. done. }
    rewrite <- app_assoc in IH1. split; [done|]. simpl.
    pose proof (walk_from_head _ _ _ _ _ Hrest) as Hhead.
    destruct rest as [|r rest]; simplify_eq/=.
    intros f [->|Hf]%elem_of_cons; [done|]. by apply IH2.
Qed.

Lemma walk_result start first inc' :
  getVertexIncidentFaces t v = first :: inc' →
  walk_from t v [] (default first start) (walkAroundVertex t v start).
Proof.
  intros Hinc. unfold walkAroundVertex, walkAroundVertex_fuel.
  rewrite Hinc. rewrite <- Hinc.
  destruct (walk_loop_start_terminates t v _ (default first start)
              (Nat.le_refl _)) as [fs Hfs].
  rewrite Hfs. simpl.
  apply walk_loop_from in Hfs as (rest & -> & Hrest);
    [done|set_solver|set_solver].
Qed.
End walk_more.

(** X12: the walk visits no face twice; it is empty exactly when the
    vertex has no incident face; it starts at the start face, or at the
    first incident face when none is given; every later face is
    incident to the vertex, and so is every face when no start face is
    given; it has at most one face more than there are incident
    faces. *)
Theorem walk_around_vertex_faces t v start :
  let fs := walkAroundVertex t v start in
  let incident := getVertexIncidentFaces t v in
  NoDup fs
  ∧ (fs = [] ↔ incident = [])
  ∧ head fs = (λ first, default first start) <$> head incident
  ∧ (∀ f, f ∈ tail fs → f ∈ incident)
  ∧ (start = None → ∀ f, f ∈ fs → f ∈ incident)
  ∧ (length fs ≤ S (length incident))%nat.
Proof.
  intros fs incident.
  destruct incident as [|first inc'] eqn:Hinc.
  { assert (fs = []) as ->.
    { subst fs. unfold walkAroundVertex, walkAroundVertex_fuel.
      fold incident. by rewrite Hinc. }
    split; [constructor|]. split; [done|]. split; [done|].
    split; [by intros f ?%elem_of_nil|].
    split; [by intros _ f ?%elem_of_nil|]. simpl. lia. }
  pose proof (walk_result t v start first inc' Hinc) as Hwalk. fold fs in Hwalk.
  pose proof (walk_from_head _ _ _ _ _ Hwalk) as Hhead.
  destruct (walk_from_faces _ _ _ _ _ Hwalk) as [Hnd Htail];
    [constructor|set_solver|].
  simpl in Hnd. fold incident in Htail. rewrite Hinc in Htail.
  split; [done|]. split.
  { split; [|done]. intros ->. done. }
  split; [by rewrite head_lookup|]. split; [done|]. split.
  - intros -> f Hf. destruct fs as [|f0 fs']; simplify_eq/=.
    apply elem_of_cons in Hf as [->|Hf]; [by left|by apply Htail].
  - destruct fs as [|f0 fs']; [simpl; lia|]. simpl in *.
    apply NoDup_cons in Hnd as [_ Hnd].
    pose proof (submseteq_length _ _ (NoDup_submseteq _ _ Hnd Htail)).
    simpl in *. lia.
Qed.

(** ** Well-formed snapshots *)

(** X11: on a well-formed snapshot the three vertices of a valid face
    are numbers and valid vertices. *)
Theorem face_vertices_valid t f :
  well_formed t → valid_face t f →
  ∃ a b c, getFaceVertices t f = [Some a; Some b; Some c]
           ∧ valid_vertex t a ∧ valid_vertex t b ∧ valid_vertex t c.
Proof.
  intros Hwf Hf.
  assert (∃ a b c, getFaceVertices t f = [Some a; Some b; Some c])
    as (a & b & c & Heq).
  { destruct Hwf as [_ Hwf]. apply valid_face_iff in Hf.
    unfold getFaceVertices, face_triple, face_range in *.
    destruct (indices t) as [idx|]; [|eauto].
    destruct Hwf as [Hlen _]. apply elem_of_loop_range in Hf; [|lia].
    apply Z.mod_divide in Hlen as [k Hk]; [|lia].
    assert (∀ i, 0 ≤ i < 3 → is_Some (typed_get idx (f * 3 + i))) as Hget.
    { intros i Hi. unfold typed_get. rewrite decide_True by lia.
      apply lookup_lt_is_Some_2. lia. }
    destruct (Hget 0 ltac:(lia)) as [a Ha].
    destruct (Hget 1 ltac:(lia)) as [b Hb].
    destruct (Hget 2 ltac:(lia)) as [c Hc].
    rewrite Z.add_0_r in Ha. rewrite Ha, Hb, Hc. eauto. }
  exists a, b, c. split; [done|].
  apply valid_face_iff in Hf.
  repeat split; apply (face_vertex_valid t f); try done;
    rewrite Heq; set_solver.
Qed.

Lemma face_vertices_valid_witness :
  let t := createHalfEdgeTopology quad in
  ∃ a b c, getFaceVertices t 1 = [Some a; Some b; Some c]
           ∧ valid_vertex t a ∧ valid_vertex t b ∧ valid_vertex t c.
Proof.
  apply (face_vertices_valid (createHalfEdgeTopology quad) 1).
  - apply quad_well_formed.
  - apply valid_face_iff. vm_compute. set_solver.
Defined.

(** ** Geometry without an index buffer *)

Lemma div3_iff v f : v `div` 3 = f ↔ f * 3 ≤ v < f * 3 + 3.
Proof.
  pose proof (Z.div_mod v 3 ltac:(lia)).
  pose proof (Z.mod_pos_bound v 3 ltac:(lia)).
  split; [intros <-; lia|intros Hv; symmetry].
  apply (Z.div_unique v 3 f (v - f * 3)); lia.
Qed.

Lemma div3_cases v :
  v = v `div` 3 * 3 ∨ v = v `div` 3 * 3 + 1 ∨ v = v `div` 3 * 3 + 2.
Proof. pose proof (proj1 (div3_iff v _) eq_refl). lia. Qed.

Section nonindexed.
Variable t : Topology.
Hypothesis no_index : indices t = None.

Lemma nonindexed_face_vertices f :
  getFaceVertices t f = [Some (f * 3); Some (f * 3 + 1); Some (f * 3 + 2)].
Proof. unfold getFaceVertices. by rewrite no_index. Qed.

Lemma nonindexed_face_contains f v :
  Some v ∈ getFaceVertices t f ↔ v `div` 3 = f.
Proof.
  rewrite nonindexed_face_vertices, !elem_of_cons, elem_of_nil.
  split.
  - intros [[= ->]|[[= ->]|[[= ->]|[]]]]; apply div3_iff; lia.
  - intros <-. destruct (div3_cases v) as [H|[H|H]].
    + left. by f_equal.
    + right; left. by f_equal.
    + right; right; left. by f_equal.
Qed.

Lemma nonindexed_incident_faces v :
  valid_face t (v `div` 3) →
  getVertexIncidentFaces t (Some v) = [v `div` 3].
Proof.
  intros Hf.
  pose proof (NoDup_incident_faces t (Some v)) as Hnd.
  assert (∀ f, f ∈ getVertexIncidentFaces t (Some v) ↔ f = v `div` 3) as Hin.
  { intros f. rewrite elem_of_incident_faces, nonindexed_face_contains.
    split; [by intros [_ <-]|by intros ->]. }
  destruct (getVertexIncidentFaces t (Some v)) as [|f1 [|f2 l]].
  - specialize (Hin (v `div` 3)). set_solver.
  - f_equal. apply Hin. by left.
  - assert (f1 = f2); [|subst; apply NoDup_cons in Hnd; set_solver].
    transitivity (v `div` 3); [|symmetry]; apply Hin; set_solver.
Qed.

Lemma nonindexed_neighbors v :
  valid_face t (v `div` 3) →
  getVertexNeighbors t (Some v)
  = filter (.≠ Some v) (getFaceVertices t (v `div` 3)).
Proof.
  intros Hf. unfold getVertexNeighbors.
  rewrite nonindexed_incident_faces by done. simpl.
  rewrite nonindexed_face_vertices.
  pose proof (div3_cases v) as Hv.
  generalize dependent (v `div` 3). intros f _ Hv.
  unfold indexOf, set_add. simpl. rewrite !array_get_3. simpl.
  rewrite !filter_cons, filter_nil.
  destruct Hv as [-> | [-> | ->]].
  all: repeat (case_decide; simplify_eq/=; try lia).
  all: try done.
  all: match goal with
       | H : _ ∈ [_] |- _ =>
           apply list_elem_of_singleton in H; simplify_eq; lia
       end.
Qed.

Lemma nonindexed_neighbor_triangle u w :
  w ∈ getVertexNeighbors t (Some u) →
  valid_face t (u `div` 3) ∧ ∃ y, w = Some y ∧ y `div` 3 = u `div` 3.
Proof.
  intros (f & i & [Hf Hu]%elem_of_incident_faces & Hi & _ & Hw)
    %elem_of_neighbors.
  apply nonindexed_face_contains in Hu as <-. split; [done|].
  rewrite nonindexed_face_vertices, array_get_3 in Hw.
  destruct Hi as [-> | [-> | ->]]; simpl in Hw; subst w;
    eexists; (split; [done|]); apply div3_iff; lia.
Qed.

Lemma nonindexed_reach a n x :
  reach (getVertexNeighbors t) (Some a) n x →
  ∃ y, x = Some y ∧ y `div` 3 = a `div` 3.
Proof.
  induction 1 as [|n u w Hu (y & -> & Hy) Hw]; [by exists a|].
  apply nonindexed_neighbor_triangle in Hw as (_ & z & -> & Hz).
  exists z. split; [done|]. lia.
Qed.
End nonindexed.

(** X16: without an index buffer a vertex [v] of a valid face
    [v div 3] has that face as its only incident face, the other two
    vertices of the face as its neighbours, and valence 2. *)
Theorem nonindexed_vertex_star t v :
  indices t = None → valid_face t (v `div` 3) →
  getVertexIncidentFaces t (Some v) = [v `div` 3]
  ∧ getVertexNeighbors t (Some v)
    = filter (.≠ Some v) (getFaceVertices t (v `div` 3))
  ∧ getVertexValence t (Some v) = 2.
Proof.
  intros Hidx Hf. split; [by apply nonindexed_incident_faces|].
  split; [by apply nonindexed_neighbors|].
  unfold getVertexValence. rewrite nonindexed_neighbors by done.
  rewrite nonindexed_face_vertices by done.
  pose proof (div3_cases v) as Hv.
  generalize dependent (v `div` 3). intros f _ Hv.
  destruct Hv as [-> | [-> | ->]].
  all: rewrite !filter_cons, filter_nil.
  all: repeat (case_decide; simplify_eq/=; try lia); done.
Qed.

Lemma nonindexed_vertex_star_witness :
  let t := createHalfEdgeTopology triangle in
  getVertexIncidentFaces t (Some 1) = [0]
  ∧ getVertexNeighbors t (Some 1) = [Some 0; Some 2]
  ∧ getVertexValence t (Some 1) = 2.
Proof.
  apply (nonindexed_vertex_star (createHalfEdgeTopology triangle) 1).
  - reflexivity.
  - apply valid_face_iff. vm_compute. set_solver.
Defined.

(** X17: without an index buffer a path is found only between
    vertices of one face, and it has at most two vertices. *)
Theorem nonindexed_path_in_triangle t a b p :
  indices t = None →
  findShortestPath t (Some a) (Some b) = Some p →
  a `div` 3 = b `div` 3 ∧ (length p ≤ 2)%nat.
Proof.
  intros Hidx [Hp Hmin]%found_path_minimal.
  pose proof (vertex_path_reach _ _ _ _ Hp) as Hr.
  apply nonindexed_reach in Hr as (y & [= <-] & Hy); [|done].
  split; [done|].
  destruct (decide (a = b)) as [->|Hne].
  { etrans; [apply (Hmin [Some b]), vertex_path_start|]. simpl. lia. }
  destruct Hp as (Hh & Hl & Hs).
  destruct p as [|x [|w p]]; simplify_eq/=.
  specialize (Hs 0%nat (Some a) w eq_refl eq_refl).
  apply nonindexed_neighbor_triangle in Hs as [Hf _]; [|done].
  etrans; [apply (Hmin [Some a; Some b])|simpl; lia].
  split; [done|]. split; [done|].
  intros [|[|i]] u w'; simpl; intros; simplify_eq.
  rewrite nonindexed_neighbors by done.
  apply list_elem_of_filter. split; [congruence|].
  apply nonindexed_face_contains; [done|congruence].
Qed.

Lemma nonindexed_path_in_triangle_witness :
  0 `div` 3 = 2 `div` 3 ∧ (length [Some 0%Z; Some 2%Z] ≤ 2)%nat.
Proof.
  apply (nonindexed_path_in_triangle (createHalfEdgeTopology triangle) 0 2).
  - reflexivity.
  - vm_compute. reflexivity.
Defined.
